(** * pytorch-text: the batch collation pipeline and the epoch driver

    A shallow embedding of the glue code of the two notebooks of the
    repository (the IMDB sentiment notebook and the AG News topic notebook):
    the text and label pipelines, the [Collator] that packs a batch of
    variable-length samples into a flat buffer plus offsets, the embedding-bag
    stage of [TextClassificationModel.forward] and the per-epoch update of
    the training driver.

    Conventions.
    - A Python [int] is a [Z]; a [str] is a [string]; a Python list and a
      one-dimensional tensor are [list]s.
    - A call that may raise is a function into [result]; the exception is the
      payload of [Raise] and it propagates through [≫=], as the notebooks
      have no [try].
    - [torch.tensor (.., dtype=torch.int64)] keeps a Python int only when it
      fits in 64 bits and raises otherwise ([torch_tensor_int64]).  The
      entries of [offsets] and their running sums are sizes of tensors that
      exist in memory, so they are far below [2^63] and are kept as plain [Z].
    - [.to(device)] moves a tensor and leaves its content alone; it is the
      identity here. *)

From Stdlib Require Import ZArith QArith Qcanon String Ascii List Lia.
From stdpp Require Import base list gmap strings.

Open Scope Z_scope.

(** ** Exceptions and the error monad *)

Inductive exn : Type :=
| ValueError
| TypeError
| IndexError
| RuntimeError.

Inductive result (A : Type) : Type :=
| Ok (a : A)
| Raise (e : exn).

Arguments Ok {A} a.
Arguments Raise {A} e.

#[global] Instance result_ret : MRet result := fun A a => Ok a.

#[global] Instance result_bind : MBind result := fun A B f m =>
  match m with
  | Ok a => f a
  | Raise e => Raise e
  end.

#[global] Instance result_fmap : FMap result := fun A B f m =>
  match m with
  | Ok a => Ok (f a)
  | Raise e => Raise e
  end.

Definition is_Ok {A} (m : result A) : bool :=
  match m with
  | Ok _ => true
  | Raise _ => false
  end.

(** ** Python values a dataset label can be *)

Inductive pyval : Type :=
| PyStr (s : string)
| PyInt (n : Z)
| PyNone.

#[global] Instance pyval_eq_dec : EqDecision pyval.
Proof. solve_decision. Defined.

(** [a == b] on these values. *)
Definition py_eq (a b : pyval) : bool := bool_decide (a = b).

(** *** The builtin [int]

    [int(x)] on an int is [x]; on [None] it raises [TypeError]; on a string
    it strips the surrounding white space, reads an optional sign and then
    decimal digits, where single underscores may separate digits, and raises
    [ValueError] on anything else.

    Two sets of white space are in play.  [str.split] and [str.isspace] count
    the tab to the carriage return (9 to 13), the four separators 28 to 31
    and the blank ([is_space]).  [int] strips less: among the ASCII
    characters only 9 to 13 and the blank ([is_int_space]), so that
    [int("3\x1c")] raises.

    The model of [int] is exact on strings of ASCII characters.  A string it
    accepts is made of ASCII characters only ([py_int_reads_ascii_only]), and
    on it [int] returns the same number.  On a string with a character
    outside ASCII the model raises [ValueError], which [int] does too unless
    that character is a decimal digit or white space of another script; no
    statement below draws a [ValueError] from such a character. *)

Definition is_space (c : ascii) : bool :=
  let n := nat_of_ascii c in
  ((9 <=? n) && (n <=? 13) || (28 <=? n) && (n <=? 32))%nat.

Definition is_int_space (c : ascii) : bool :=
  let n := nat_of_ascii c in
  ((9 <=? n) && (n <=? 13) || (n =? 32))%nat.

Definition is_ascii (c : ascii) : bool := (nat_of_ascii c <? 128)%nat.

Definition is_digit (c : ascii) : bool :=
  let n := nat_of_ascii c in ((48 <=? n) && (n <=? 57))%nat.

Definition digit_value (c : ascii) : Z := Z.of_nat (nat_of_ascii c) - 48.

Fixpoint lstrip (cs : list ascii) : list ascii :=
  match cs with
  | c :: cs' => if is_int_space c then lstrip cs' else cs
  | [] => []
  end.

Definition strip (cs : list ascii) : list ascii :=
  rev (lstrip (rev (lstrip cs))).

(** [digits acc after_digit cs]: [after_digit] tells that the previous
    character was a digit, the only place where an underscore or the end of
    the literal is allowed. *)
Fixpoint digits (acc : Z) (after_digit : bool) (cs : list ascii) : option Z :=
  match cs with
  | [] => if after_digit then Some acc else None
  | c :: cs' =>
      if is_digit c then digits (10 * acc + digit_value c) true cs'
      else if (Ascii.eqb c "_" && after_digit)%bool then digits acc false cs'
      else None
  end.

Definition int_of_literal (cs : list ascii) : option Z :=
  match strip cs with
  | "-"%char :: ds => Z.opp <$> digits 0 false ds
  | "+"%char :: ds => digits 0 false ds
  | ds => digits 0 false ds
  end.

Definition py_int (x : pyval) : result Z :=
  match x with
  | PyInt n => Ok n
  | PyStr s =>
      match int_of_literal (list_ascii_of_string s) with
      | Some n => Ok n
      | None => Raise ValueError
      end
  | PyNone => Raise TypeError
  end.

(** ** Tensors of [torch.int64] *)

Definition in_int64 (z : Z) : bool :=
  (- 2 ^ 63 <=? z) && (2 ^ 63 >? z).

(** [torch.tensor(xs, dtype=torch.int64)] for a list of Python ints. *)
Definition torch_tensor_int64 (xs : list Z) : result (list Z) :=
  if forallb in_int64 xs then Ok xs else Raise RuntimeError.

(** [t.size(0)] *)
Definition size0 (t : list Z) : Z := Z.of_nat (length t).

(** [xs[:-1]]: everything but the last element, nothing for the empty list. *)
Definition py_drop_last {A} (xs : list A) : list A :=
  take (length xs - 1)%nat xs.

(** [t.cumsum(dim=0)] *)
Fixpoint cumsum_from (acc : Z) (xs : list Z) : list Z :=
  match xs with
  | [] => []
  | x :: xs' => (acc + x) :: cumsum_from (acc + x) xs'
  end.

Definition cumsum (xs : list Z) : list Z := cumsum_from 0 xs.

(** Modelled from the spec: [torch.cat] is PyTorch's and not part of the
    sources.  It joins one-dimensional tensors end to end, and it rejects an
    empty list of tensors with a [RuntimeError]; section 7 of the
    specification records that an empty batch ends in an uncaught failure. *)
Definition torch_cat (ts : list (list Z)) : result (list Z) :=
  match ts with
  | [] => Raise RuntimeError
  | _ => Ok (concat ts)
  end.

(** [xs[start:stop]] for bounds that are not negative. *)
Definition py_slice {A} (xs : list A) (start stop : Z) : list A :=
  take (Z.to_nat stop - Z.to_nat start)%nat (drop (Z.to_nat start) xs).

(** ** The vocabulary *)

Definition int64 : Type := { z : Z | in_int64 z = true }.

Definition int64_val (i : int64) : Z := proj1_sig i.

(** Modelled from the spec: [Vocab] is torchtext's and not part of the
    sources.  The specification describes it as a frozen table from token
    string to integer id with a reserved id for unknown tokens, where the
    lookup of an unseen token resolves to that reserved id instead of
    failing.  Ids are positions in the table, hence machine integers. *)
Record Vocab : Type := {
  stoi : gmap string int64;
  unk_index : int64
}.

(** Modelled from the spec: [vocab[token]], see [Vocab]. *)
Definition Vocab_getitem (v : Vocab) (token : string) : Z :=
  int64_val (default (unk_index v) (stoi v !! token)).

(** ** The collator

    The cell that defines [Collator] is the same text in both notebooks.  Its
    two pipelines are any callables; a pipeline that raises ends the call. *)

Definition sample : Type := pyval * string.

Record Collator : Type := {
  text_pipeline : string → result (list Z);
  label_pipeline : pyval → result Z
}.

(** The three lists the loop appends to. *)
Record loop_state : Type := {
  st_labels : list Z;
  st_texts : list (list Z);
  st_offsets : list Z
}.

(** [labels, texts, offsets = [], [], [0]] *)
Definition loop_init : loop_state :=
  {| st_labels := []; st_texts := []; st_offsets := [0] |}.

(** One turn of [for (label, text) in batch]. *)
Definition loop_body (self : Collator) (st : loop_state) (s : sample)
  : result loop_state :=
  let '(label, text) := s in
  l ← label_pipeline self label;
  ids ← text_pipeline self text;
  processed_text ← torch_tensor_int64 ids;
  mret {| st_labels := st_labels st ++ [l];
          st_texts := st_texts st ++ [processed_text];
          st_offsets := st_offsets st ++ [size0 processed_text] |}.

Fixpoint for_each {S A} (body : S → A → result S) (st : S) (xs : list A)
  : result S :=
  match xs with
  | [] => Ok st
  | x :: xs' => st' ← body st x; for_each body st' xs'
  end.

(** [Collator.__call__]: the triple [(labels, texts, offsets)]. *)
Definition Collator_call (self : Collator) (batch : list sample)
  : result (list Z * list Z * list Z) :=
  st ← for_each (loop_body self) loop_init batch;
  labels ← torch_tensor_int64 (st_labels st);
  let offsets := cumsum (py_drop_last (st_offsets st)) in
  texts ← torch_cat (st_texts st);
  mret (labels, texts, offsets).

(** ** The sentiment notebook (IMDB) *)

Module IMDB.

(** A spaCy token, of which the pipeline reads the attribute [text]. *)
Record Token : Type := { token_text : string }.

Record TextPipeline : Type := {
  vocab : Vocab;
  tokenizer : string → list Token
}.

Definition TextPipeline_call (self : TextPipeline) (text : string) : list Z :=
  map (λ token, Vocab_getitem (vocab self) (token_text token))
      (tokenizer self text).

(** [0 if label == "neg" else 1] *)
Definition LabelPipeline_call (label : pyval) : Z :=
  if py_eq label (PyStr "neg") then 0 else 1.

(** [Collator(TextPipeline(vocab, tokenizer), LabelPipeline())] *)
Definition collator (v : Vocab) (tok : string → list Token) : Collator :=
  {| text_pipeline := λ text,
       Ok (TextPipeline_call {| vocab := v; tokenizer := tok |} text);
     label_pipeline := λ label, Ok (LabelPipeline_call label) |}.

End IMDB.

(** ** The topic notebook (AG News) *)

Module AGNews.

Record TextPipeline : Type := {
  vocab : Vocab;
  tokenizer : string → list string
}.

Definition TextPipeline_call (self : TextPipeline) (text : string) : list Z :=
  map (λ token, Vocab_getitem (vocab self) token) (tokenizer self text).

(** [int(label) - 1] *)
Definition LabelPipeline_call (label : pyval) : result Z :=
  n ← py_int label; mret (n - 1).

Definition collator (v : Vocab) (tok : string → list string) : Collator :=
  {| text_pipeline := λ text,
       Ok (TextPipeline_call {| vocab := v; tokenizer := tok |} text);
     label_pipeline := LabelPipeline_call |}.

End AGNews.

(** ** A tokenizer and a vocabulary for worked examples

    Both notebooks take their tokenizer from a library (spaCy's, torchtext's
    [basic_english]).  On lower-case words separated by single blanks both
    cut at the blanks, which is what [whitespace_tokenizer] does, as
    [str.split()]; on the empty string all three yield no token. *)

Fixpoint split_ws (cur : list ascii) (cs : list ascii) : list string :=
  match cs with
  | [] => match cur with [] => [] | _ => [string_of_list_ascii (rev cur)] end
  | c :: cs' =>
      if is_space c
      then match cur with
           | [] => split_ws [] cs'
           | _ => string_of_list_ascii (rev cur) :: split_ws [] cs'
           end
      else split_ws (c :: cur) cs'
  end.

Definition whitespace_tokenizer (text : string) : list string :=
  split_ws [] (list_ascii_of_string text).

Definition spacy_like_tokenizer (text : string) : list IMDB.Token :=
  map IMDB.Build_Token (whitespace_tokenizer text).

Definition mk_int64 (z : Z) (H : in_int64 z = true) : int64 := exist _ z H.

(** Ids 0 and 1 are the reserved unknown and padding entries. *)
Definition demo_vocab : Vocab :=
  {| stoi := list_to_map
       [("<unk>"%string, mk_int64 0 eq_refl); ("<pad>"%string, mk_int64 1 eq_refl);
        ("film"%string, mk_int64 2 eq_refl); ("bad"%string, mk_int64 3 eq_refl);
        ("great"%string, mk_int64 4 eq_refl)];
     unk_index := mk_int64 0 eq_refl |}.

(** ** The embedding-bag stage of [TextClassificationModel]

    The entries of the embedding table are floating-point numbers.  The model
    is stated over any carrier with a zero, an addition and a division by a
    count ([Num]); the two facts used about it ([NumLaws]) hold of the
    values of IEEE arithmetic as they do of the rationals: adding a number
    to zero and dividing it by one give the number back. *)

Class Num (F : Type) : Type := {
  fzero : F;
  fadd : F → F → F;
  fdiv : F → Z → F
}.

Class NumLaws (F : Type) `{Num F} : Prop := {
  fadd_0_l : ∀ x : F, fadd fzero x = x;
  fdiv_1_r : ∀ x : F, fdiv x 1 = x
}.

#[global] Instance Qc_num : Num Qc :=
  {| fzero := Q2Qc 0;
     fadd := Qcplus;
     fdiv := λ x n, Qcdiv x (Q2Qc (inject_Z n)) |}.

(** [nn.EmbeddingBag(num_embeddings, embedding_dim)]: a table with one row
    of [embedding_dim] numbers per id. *)
Record EmbeddingBag (F : Type) : Type := {
  num_embeddings : nat;
  embedding_dim : nat;
  weight : nat → nat → F
}.

Arguments num_embeddings {F} _.
Arguments embedding_dim {F} _.
Arguments weight {F} _ _ _.

Section EmbeddingBagModel.
Context {F : Type} `{Num F}.

(** [weight[i]], the raw embedding vector of id [i]. *)
Definition weight_row (e : EmbeddingBag F) (i : nat) : list F :=
  map (weight e i) (seq 0 (embedding_dim e)).

(** The row of an id; an id outside the table is an error. *)
Definition embed (e : EmbeddingBag F) (id : Z) : result (list F) :=
  if (0 <=? id) && (id <? Z.of_nat (num_embeddings e))
  then Ok (weight_row e (Z.to_nat id))
  else Raise IndexError.

Definition vadd (u v : list F) : list F := zip_with fadd u v.

Definition vsum (dim : nat) (rows : list (list F)) : list F :=
  foldl vadd (replicate dim fzero) rows.

(** The mean of the rows of one bag; an empty bag gives zeros. *)
Definition bag_mean (dim : nat) (rows : list (list F)) : list F :=
  match rows with
  | [] => replicate dim fzero
  | _ => map (λ x, fdiv x (Z.of_nat (length rows))) (vsum dim rows)
  end.

(** The span of bag [i] is [offsets[i] : offsets[i+1]], and the last one
    runs to the end of the buffer. *)
Definition bag_bounds (offsets : list Z) (total : Z) : list (Z * Z) :=
  zip offsets (drop 1 offsets ++ [total]).

(** Modelled from the spec: [nn.EmbeddingBag] is PyTorch's and not part of
    the sources.  Section 4.3 of the specification and the notebook's own
    notes describe the stage: for each sample take the slice of the flat
    buffer that the offsets delimit, look up the vector of every token in
    it and average them, one vector per sample.  The offsets meant are those
    of the collator, which start at 0 and stay within the buffer; nothing is
    said here about other offsets. *)
Definition EmbeddingBag_call (e : EmbeddingBag F) (text offsets : list Z)
  : result (list (list F)) :=
  mapM (λ '(start, stop),
          rows ← mapM (embed e) (py_slice text start stop);
          mret (bag_mean (embedding_dim e) rows))
       (bag_bounds offsets (size0 text)).

(** [TextClassificationModel]: the embedding bag and the feed-forward
    stack [fc], which maps each averaged row to the class scores. *)
Record TextClassificationModel : Type := {
  embedding : EmbeddingBag F;
  fc : list F → list F
}.

(** [forward(text, offsets)] *)
Definition forward (self : TextClassificationModel) (text offsets : list Z)
  : result (list (list F)) :=
  embedded ← EmbeddingBag_call (embedding self) text offsets;
  mret (map (fc self) embedded).

End EmbeddingBagModel.

Arguments TextClassificationModel F : clear implicits.

(** ** The epoch driver

    [evaluate] returns the accuracy as a float, the quotient of two counts;
    it is never a NaN, so the comparison [total_accu > accu_val] is the
    comparison of the two values as rationals, which is how an accuracy is
    kept here.  What [train] and [evaluate] compute is the library's; the
    driver only sees [accu_val]. *)

(** Modelled from the spec: [StepLR] is PyTorch's and not part of the
    sources.  The driver builds it with step size 1 and [gamma = 0.1], so
    every [scheduler.step()] counts one more epoch and multiplies the learning
    rate by [gamma]: the decay of section 4.4 of the specification. *)
Record StepLR : Type := {
  last_epoch : nat;
  lr : Q
}.

Definition gamma : Q := 1 # 10.

Definition LR : Q := 5 # 1.

Definition EPOCHS : nat := 10.

Definition scheduler_step (s : StepLR) : StepLR :=
  {| last_epoch := S (last_epoch s); lr := (lr s * gamma)%Q |}.

Record driver_state : Type := {
  total_accu : option Q;
  scheduler : StepLR
}.

(** [total_accu = None] and a fresh scheduler at learning rate [LR]. *)
Definition driver_init : driver_state :=
  {| total_accu := None; scheduler := {| last_epoch := 0; lr := LR |} |}.

(** [a > b] on accuracies. *)
Definition Qgtb (a b : Q) : bool := negb (Qle_bool a b).

(** The branch after [accu_val = evaluate(valid_dataloader, model)]:
    [if total_accu is not None and total_accu > accu_val: scheduler.step()]
    [else: total_accu = accu_val]. *)
Definition epoch_update (st : driver_state) (accu_val : Q) : driver_state :=
  if match total_accu st with
     | Some best => Qgtb best accu_val
     | None => false
     end
  then {| total_accu := total_accu st;
          scheduler := scheduler_step (scheduler st) |}
  else {| total_accu := Some accu_val; scheduler := scheduler st |}.

(** The loop [for epoch in range(1, EPOCHS + 1)], given the accuracy that
    [evaluate] returns in each epoch. *)
Definition run_epochs (st : driver_state) (accu_vals : list Q) : driver_state :=
  foldl epoch_update st accu_vals.

(** ** Vocabulary used to state the properties *)

(** What the loop keeps of a sample: its label id and its tensor of ids. *)
Definition encode (self : Collator) (s : sample) : result (Z * list Z) :=
  l ← label_pipeline self s.1;
  ids ← text_pipeline self s.2;
  processed_text ← torch_tensor_int64 ids;
  mret (l, processed_text).

(** The sample goes through both pipelines and fits the two int64 tensors. *)
Definition encodes (self : Collator) (s : sample) : bool :=
  match encode self s with
  | Ok (l, _) => in_int64 l
  | Raise _ => false
  end.

Definition label_id (self : Collator) (s : sample) : Z :=
  match label_pipeline self s.1 with
  | Ok l => l
  | Raise _ => 0
  end.

Definition token_ids (self : Collator) (s : sample) : list Z :=
  match text_pipeline self s.2 with
  | Ok ids => ids
  | Raise _ => []
  end.

Definition strictly_increasing (xs : list Z) : Prop :=
  ∀ (i : nat) (x y : Z), xs !! i = Some x → xs !! S i = Some y → x < y.

Definition non_decreasing (xs : list Z) : Prop :=
  ∀ (i : nat) (x y : Z), xs !! i = Some x → xs !! S i = Some y → x ≤ y.

Definition sumZ (xs : list Z) : Z := foldr Z.add 0 xs.

(** Where the ids of sample [i] start in the flat buffer: after the ids of
    the samples before it. *)
Definition start_of (self : Collator) (batch : list sample) (i : nat) : Z :=
  size0 (concat (map (token_ids self) (take i batch))).

(** Plain decimal numerals: the character of a digit, the string of a list
    of digits (most significant first) and the number it denotes. *)
Definition digit_char (d : nat) : ascii := ascii_of_nat (48 + d).

Definition numeral (ds : list nat) : string :=
  string_of_list_ascii (map digit_char ds).

Definition numeral_value (ds : list nat) : Z :=
  foldl (λ acc d, 10 * acc + Z.of_nat d) 0 ds.

(** The starts and the spans of consecutive runs of the given lengths, the
    first run starting at [acc]. *)
Fixpoint starts (acc : Z) (lens : list Z) : list Z :=
  match lens with
  | [] => []
  | len :: lens' => acc :: starts (acc + len) lens'
  end.

Fixpoint spans (acc : Z) (lens : list Z) : list (Z * Z) :=
  match lens with
  | [] => []
  | len :: lens' => (acc, acc + len) :: spans (acc + len) lens'
  end.

(** The vector of a sample: the mean of the rows of its token ids. *)
Definition sample_vector {F : Type} `{Num F}
    (e : EmbeddingBag F) (ids : list Z) : list F :=
  bag_mean (embedding_dim e) (map (λ id, weight_row e (Z.to_nat id)) ids).

(** ** [evaluate] and [train]

    Both loops read encoded batches [(label, text, offsets)], ask the model
    for its scores and count the samples whose highest score is at the
    label.  The scores are floating-point numbers and come from the library;
    here the model is any callable from [(text, offsets)] to rows of scores
    over some carrier, and [argmax1] stands for [Tensor.argmax(1)], the
    column of the highest score of each row. *)

Definition encoded_batch : Type := list Z * list Z * list Z.

(** How a call ends: it returns, it raises one of [exn], or it raises the
    [ZeroDivisionError] of a division by zero. *)
Inductive outcome (A : Type) : Type :=
| Returns (a : A)
| Raises (e : exn)
| RaisesZeroDivisionError.

Arguments Returns {A} a.
Arguments Raises {A} e.
Arguments RaisesZeroDivisionError {A}.

#[global] Instance outcome_ret : MRet outcome := fun A a => Returns a.

#[global] Instance outcome_bind : MBind outcome := fun A B f m =>
  match m with
  | Returns a => f a
  | Raises e => Raises e
  | RaisesZeroDivisionError => RaisesZeroDivisionError
  end.

Definition lift {A} (m : result A) : outcome A :=
  match m with
  | Ok a => Returns a
  | Raise e => Raises e
  end.

(** The number of positions at which two lists agree. *)
Fixpoint agreements (a b : list Z) : Z :=
  match a, b with
  | x :: a', y :: b' => (if decide (x = y) then 1 else 0) + agreements a' b'
  | _, _ => 0
  end.

(** [(a == b).sum().item()] on one-dimensional tensors.  Tensors of the
    same size are compared position by position; a tensor of one element
    is compared with every element of the other; any other pair of sizes
    is rejected. *)
Definition eq_sum (a b : list Z) : result Z :=
  if decide (length a = length b) then Ok (agreements a b)
  else match a, b with
       | [x], _ => Ok (agreements (replicate (length b) x) b)
       | _, [y] => Ok (agreements a (replicate (length a) y))
       | _, _ => Raise RuntimeError
       end.

(** [a / b] on Python ints: the quotient, unless [b] is 0. *)
Definition true_div (a b : Z) : outcome Q :=
  if b =? 0 then RaisesZeroDivisionError
  else Returns (Qmake a (Z.to_pos (Z.abs b)) * inject_Z (Z.sgn b))%Q.

Definition log_interval : nat := 500.

(** [idx % log_interval == 0 and idx > 0] *)
Definition logged (idx : nat) : bool :=
  ((idx mod log_interval =? 0) && (0 <? idx))%nat.

Section TrainEvaluate.
Context {F : Type}.
Variable argmax1 : list (list F) → result (list Z).

(** One turn of the loop of [evaluate]; the state is
    [(total_correct, total_count)]. *)
Definition evaluate_body
    (model : list Z → list Z → result (list (list F)))
    (st : Z * Z) (b : encoded_batch) : result (Z * Z) :=
  let '(label, text, offsets) := b in
  predited_label ← model text offsets;
  classes ← argmax1 predited_label;
  correct ← eq_sum classes label;
  mret (st.1 + correct, st.2 + size0 label).

(** [evaluate(dataloader, model)] *)
Definition evaluate (dataloader : list encoded_batch)
    (model : list Z → list Z → result (list (list F))) : outcome Q :=
  st ← lift (for_each (evaluate_body model) (0, 0) dataloader);
  true_div st.1 st.2.

(** [train] changes the model as it goes.  [M] is all that changes (the
    parameters, the gradients, the state of the optimizer) and
    [forward_backward] is the body of the loop up to [optimizer.step()]: it
    returns the scores it computed on the batch and what [M] has become. *)
Variable M : Type.
Variable forward_backward : M → encoded_batch → result (M * list (list F)).

(** A line that [train] prints: the index of the batch and the two counts
    whose quotient is the accuracy shown. *)
Record log_line : Type := {
  line_idx : nat;
  line_correct : Z;
  line_count : Z
}.

Record train_state : Type := {
  tr_model : M;
  tr_correct : Z;
  tr_count : Z;
  tr_printed : list log_line
}.

(** One turn of the loop of [train] at index [idx]. *)
Definition train_body (st : train_state) (idx : nat) (b : encoded_batch)
  : outcome train_state :=
  let '(label, text, offsets) := b in
  '(m, predited_label) ← lift (forward_backward (tr_model st) b);
  classes ← lift (argmax1 predited_label);
  correct ← lift (eq_sum classes label);
  let total_correct := tr_correct st + correct in
  let total_count := tr_count st + size0 label in
  if logged idx
  then
    _ ← true_div total_correct total_count;
    mret {| tr_model := m; tr_correct := 0; tr_count := 0;
            tr_printed :=
              tr_printed st ++
              [{| line_idx := idx; line_correct := total_correct;
                  line_count := total_count |}] |}
  else
    mret {| tr_model := m; tr_correct := total_correct;
            tr_count := total_count; tr_printed := tr_printed st |}.

(** [for idx, batch in enumerate(dataloader)], from index [idx] on. *)
Fixpoint train_loop (idx : nat) (st : train_state)
    (dataloader : list encoded_batch) : outcome train_state :=
  match dataloader with
  | [] => Returns st
  | b :: rest => st' ← train_body st idx b; train_loop (S idx) st' rest
  end.

(** [train(dataloader, model, loss_fn, optimizer)]: what the model has
    become and the lines printed. *)
Definition train (dataloader : list encoded_batch) (m : M)
  : outcome (M * list log_line) :=
  st ← train_loop 0 {| tr_model := m; tr_correct := 0; tr_count := 0;
                       tr_printed := [] |} dataloader;
  mret (tr_model st, tr_printed st).

End TrainEvaluate.

Arguments tr_model {M} _.
Arguments tr_correct {M} _.
Arguments tr_count {M} _.
Arguments tr_printed {M} _.

(** ** The data loader

    Modelled from the spec: [DataLoader] is PyTorch's and not part of the
    sources.  Built as in the notebooks, without shuffling, it reads the
    data set in order, fills a batch until it holds [batch_size] samples,
    hands it to [collate_fn] and starts a new one; what is left at the end
    makes a last, shorter batch.  [batches] is that grouping and
    [DataLoader_iter] lists what each step of the iteration returns or
    raises. *)
Fixpoint batch_sampler {A} (batch_size : nat) (batch : list A) (xs : list A)
  : list (list A) :=
  match xs with
  | [] => match batch with [] => [] | _ => [batch] end
  | x :: xs' =>
      if (length (batch ++ [x]) =? batch_size)%nat
      then (batch ++ [x]) :: batch_sampler batch_size [] xs'
      else batch_sampler batch_size (batch ++ [x]) xs'
  end.

Definition batches {A} (batch_size : nat) (dataset : list A) : list (list A) :=
  batch_sampler batch_size [] dataset.

Definition DataLoader_iter (dataset : list sample) (batch_size : nat)
    (collate_fn : list sample → result encoded_batch)
  : list (result encoded_batch) :=
  map collate_fn (batches batch_size dataset).

(** ** Counting the tokens of the corpus *)

(** [counter.update(tokens)] on a [collections.Counter]: one more for each
    token, a token not yet counted standing at 0. *)
Definition Counter_update (counter : gmap string nat) (tokens : list string)
  : gmap string nat :=
  foldl (λ c token, <[token := S (c !!! token)]> c) counter tokens.

(** [counter = collections.Counter()] and the loop
    [for (label, text) in train_iter: counter.update(tokenizer(text))]. *)
Definition count_tokens (tokenizer : string → list string)
    (train_iter : list sample) : gmap string nat :=
  foldl (λ counter s, Counter_update counter (tokenizer s.2)) ∅ train_iter.

(** ** The learning rate after some decays *)

Definition decayed (steps : nat) : Q :=
  Nat.iter steps (λ rate, (rate * gamma)%Q) LR.

Definition Qnon_decreasing (xs : list Q) : Prop :=
  ∀ (i : nat) (a b : Q), xs !! i = Some a → xs !! S i = Some b → (a <= b)%Q.

(** The model scores the batch and [argmax1] gives one class per label. *)
Definition scored {F : Type} (argmax1 : list (list F) → result (list Z))
    (model : list Z → list Z → result (list (list F))) (b : encoded_batch)
  : Prop :=
  ∃ (scores : list (list F)) (classes : list Z),
    model b.1.2 b.2 = Ok scores ∧ argmax1 scores = Ok classes ∧
    length classes = length b.1.1.

(** Whatever the model has become, [forward_backward] goes through on every
    batch of the loader and [argmax1] gives one class per label. *)
Definition trains_on {F M : Type} (argmax1 : list (list F) → result (list Z))
    (forward_backward : M → encoded_batch → result (M * list (list F)))
    (dataloader : list encoded_batch) : Prop :=
  ∀ (m : M) (b : encoded_batch),
    b ∈ dataloader →
    ∃ (m' : M) (scores : list (list F)) (classes : list Z),
      forward_backward m b = Ok (m', scores) ∧ argmax1 scores = Ok classes ∧
      length classes = length b.1.1.

(** The counts of a printed line make an accuracy: the second is positive
    and the first is between 0 and the second. *)
Definition line_ok (line : log_line) : Prop :=
  0 ≤ line_correct line ≤ line_count line ∧ 0 < line_count line.

(** The model scores the batch and [argmax1] gives the classes
    [classes_of b], one per label. *)
Definition scored_as {F : Type} (argmax1 : list (list F) → result (list Z))
    (model : list Z → list Z → result (list (list F)))
    (classes_of : encoded_batch → list Z) (b : encoded_batch) : Prop :=
  ∃ scores : list (list F),
    model b.1.2 b.2 = Ok scores ∧ argmax1 scores = Ok (classes_of b) ∧
    length (classes_of b) = length b.1.1.

(** The number of samples of the loader whose predicted class is their
    label: the positions at which the classes and the labels of a batch
    are equal, counted over the batches. *)
Definition right_predictions (classes_of : encoded_batch → list Z)
    (dataloader : list encoded_batch) : Z :=
  sumZ (map (λ b : encoded_batch,
               Z.of_nat (length (List.filter (λ p : Z * Z, p.1 =? p.2)
                                   (combine (classes_of b) b.1.1))))
          dataloader).

(** * Properties *)

(** ** Worked examples *)

Example whitespace_tokenizer_ex :
  whitespace_tokenizer "  bad   film " = ["bad"; "film"]%string.
Proof. reflexivity. Qed.

Example py_int_ex :
  py_int (PyStr " +1_0 ") = Ok 10 ∧ py_int (PyStr "-07") = Ok (-7) ∧
  py_int (PyStr "1__0") = Raise ValueError ∧ py_int (PyStr "") = Raise ValueError ∧
  py_int (PyStr "4") = Ok 4 ∧ py_int PyNone = Raise TypeError.
Proof. repeat split; reflexivity. Qed.

Example collate_imdb_ex :
  Collator_call (IMDB.collator demo_vocab spacy_like_tokenizer)
    [(PyStr "neg", "bad film"%string); (PyStr "pos", "a great film"%string)]
  = Ok ([0; 1], [3; 2; 0; 4; 2], [0; 2]).
Proof. vm_compute. reflexivity. Qed.

Example collate_empty_ex :
  Collator_call (IMDB.collator demo_vocab spacy_like_tokenizer) []
  = Raise RuntimeError.
Proof. reflexivity. Qed.

Example sentiment_labels_ex :
  map IMDB.LabelPipeline_call
    [PyStr "neg"; PyStr "pos"; PyStr "Neg"; PyStr "neg "; PyStr ""; PyInt 0;
     PyNone]
  = [0; 1; 1; 1; 1; 1; 1].
Proof. vm_compute. reflexivity. Qed.

(** The four classes of AG News, as strings and as the integers that the
    data set yields. *)
Example topic_labels_ex :
  map AGNews.LabelPipeline_call
    [PyStr "1"; PyStr "2"; PyStr "3"; PyStr "4"; PyInt 1; PyInt 4]
  = [Ok 0; Ok 1; Ok 2; Ok 3; Ok 0; Ok 3] ∧
  AGNews.LabelPipeline_call (PyStr "World") = Raise ValueError.
Proof. split; vm_compute; reflexivity. Qed.

Example collate_ag_news_ex :
  Collator_call (AGNews.collator demo_vocab whitespace_tokenizer)
    [(PyInt 3, "great film"%string); (PyStr "1", "bad"%string);
     (PyInt 4, "film festival opens"%string)]
  = Ok ([2; 0; 3], [4; 2; 3; 2; 0; 0], [0; 2; 3]).
Proof. vm_compute. reflexivity. Qed.

(** A label that does not read as an integer ends the whole call. *)
Example collate_ag_news_bad_label_ex :
  Collator_call (AGNews.collator demo_vocab whitespace_tokenizer)
    [(PyInt 3, "great film"%string); (PyStr "Sports", "bad"%string)]
  = Raise ValueError.
Proof. vm_compute. reflexivity. Qed.

(** A label past the range of [torch.int64] ends it too. *)
Example collate_ag_news_huge_label_ex :
  Collator_call (AGNews.collator demo_vocab whitespace_tokenizer)
    [(PyStr "9223372036854775809", "great film"%string)]
  = Raise RuntimeError.
Proof. vm_compute. reflexivity. Qed.

Example embedding_bag_ex :
  let table : EmbeddingBag Qc :=
    {| num_embeddings := 5; embedding_dim := 2;
       weight := λ i j, Q2Qc (inject_Z (Z.of_nat (i + j))) |} in
  map (map this) <$> EmbeddingBag_call table [4; 2; 3; 2] [0; 2]
  = Ok [[3 # 1; 4 # 1]; [5 # 2; 7 # 2]]%Q ∧
  EmbeddingBag_call table [4; 7] [0] = Raise IndexError.
Proof. split; vm_compute; reflexivity. Qed.

(** The ten validation accuracies printed in the topic notebook: the
    scheduler steps after epochs 8 and 10, the two that fall below the best
    so far. *)
Example run_epochs_ex :
  let accu_vals :=
    [830 # 1000; 867 # 1000; 873 # 1000; 887 # 1000; 897 # 1000; 898 # 1000;
     907 # 1000; 901 # 1000; 914 # 1000; 913 # 1000] in
  let st := run_epochs driver_init accu_vals in
  length accu_vals = EPOCHS ∧
  total_accu st = Some (914 # 1000) ∧ last_epoch (scheduler st) = 2%nat ∧
  (lr (scheduler st) == 5 # 100)%Q.
Proof. repeat split. Qed.

(** ** The loop of the collator *)

Lemma in_int64_spec (z : Z) : in_int64 z = true ↔ - 2 ^ 63 ≤ z < 2 ^ 63.
Proof. unfold in_int64. rewrite andb_true_iff, Z.leb_le, Z.gtb_gt. lia. Qed.

Lemma torch_tensor_int64_Ok (xs : list Z) :
  forallb in_int64 xs = true → torch_tensor_int64 xs = Ok xs.
Proof. intros Hxs. unfold torch_tensor_int64. by rewrite Hxs. Qed.

Lemma torch_tensor_int64_inv (xs t : list Z) :
  torch_tensor_int64 xs = Ok t → t = xs ∧ forallb in_int64 xs = true.
Proof.
  unfold torch_tensor_int64. destruct (forallb in_int64 xs); [|done].
  intros [= ->]. done.
Qed.

(** A sample that encodes has a label and ids that the loop appends as they
    are. *)
Lemma encodes_inv (self : Collator) (s : sample) :
  encodes self s = true →
  label_pipeline self s.1 = Ok (label_id self s) ∧
  text_pipeline self s.2 = Ok (token_ids self s) ∧
  forallb in_int64 (token_ids self s) = true ∧
  in_int64 (label_id self s) = true.
Proof.
  unfold encodes, encode, label_id, token_ids.
  destruct (label_pipeline self s.1) as [l|e]; [|done].
  destruct (text_pipeline self s.2) as [ids|e]; [|done].
  cbn. unfold torch_tensor_int64.
  destruct (forallb in_int64 ids) eqn:Hids; [|done].
  cbn. done.
Qed.

Lemma loop_body_encodes (self : Collator) (st : loop_state) (s : sample) :
  encodes self s = true →
  loop_body self st s =
    Ok {| st_labels := st_labels st ++ [label_id self s];
          st_texts := st_texts st ++ [token_ids self s];
          st_offsets := st_offsets st ++ [size0 (token_ids self s)] |}.
Proof.
  intros Hs. destruct (encodes_inv self s Hs) as (Hl & Ht & Hids & _).
  destruct s as [label text]. cbn in Hl, Ht. unfold loop_body.
  rewrite Hl. cbn. rewrite Ht. cbn.
  rewrite (torch_tensor_int64_Ok _ Hids). done.
Qed.

Lemma for_each_encodes (self : Collator) (batch : list sample) :
  ∀ st : loop_state,
    forallb (encodes self) batch = true →
    for_each (loop_body self) st batch =
      Ok {| st_labels := st_labels st ++ map (label_id self) batch;
            st_texts := st_texts st ++ map (token_ids self) batch;
            st_offsets :=
              st_offsets st ++ map (λ s, size0 (token_ids self s)) batch |}.
Proof.
  induction batch as [|s batch IH]; intros st Hall.
  - cbn. rewrite !app_nil_r. by destruct st.
  - cbn in Hall. apply andb_true_iff in Hall as [Hs Hall].
    cbn [for_each]. rewrite (loop_body_encodes _ _ _ Hs). cbn.
    rewrite (IH _ Hall). cbn. by rewrite <- !app_assoc.
Qed.

(** The closed form of the call on a batch that is not empty and whose
    samples all encode. *)
Lemma Collator_call_encodes (self : Collator) (batch : list sample) :
  batch ≠ [] →
  forallb (encodes self) batch = true →
  Collator_call self batch =
    Ok (map (label_id self) batch,
        concat (map (token_ids self) batch),
        cumsum (py_drop_last (0 :: map (λ s, size0 (token_ids self s)) batch))).
Proof.
  intros Hne Hall. unfold Collator_call.
  rewrite (for_each_encodes _ _ _ Hall). cbn.
  rewrite torch_tensor_int64_Ok.
  - cbn. destruct batch as [|s batch]; [done|]. done.
  - clear Hne. induction batch as [|s batch IH]; [done|].
    cbn in Hall |- *. apply andb_true_iff in Hall as [Hs Hall].
    destruct (encodes_inv self s Hs) as (_ & _ & _ & ->). by apply IH.
Qed.

(** Conversely the call returns only on such a batch: an empty batch, a
    pipeline that raises or an id that does not fit end it with an
    exception. *)
Lemma encode_label_id (self : Collator) (s : sample) (l : Z) (t : list Z) :
  encode self s = Ok (l, t) → l = label_id self s.
Proof.
  unfold encode, label_id.
  destruct (label_pipeline self s.1) as [l'|e]; [|done].
  destruct (text_pipeline self s.2) as [ids|e]; [|done].
  cbn. destruct (torch_tensor_int64 ids) as [t'|e]; [|done].
  cbn. by intros [= -> _].
Qed.

Lemma loop_body_Ok_inv (self : Collator) (st st' : loop_state) (s : sample) :
  loop_body self st s = Ok st' →
  is_Ok (encode self s) = true ∧
  st_labels st' = st_labels st ++ [label_id self s].
Proof.
  destruct s as [label text]. unfold loop_body, encode, label_id. cbn.
  destruct (label_pipeline self label) as [l|e]; [|done].
  destruct (text_pipeline self text) as [ids|e]; [|done].
  cbn. destruct (torch_tensor_int64 ids) as [t|e]; [|done].
  cbn. by intros [= <-].
Qed.

Lemma for_each_Ok_inv (self : Collator) (batch : list sample) :
  ∀ st st' : loop_state,
    for_each (loop_body self) st batch = Ok st' →
    forallb (λ s, is_Ok (encode self s)) batch = true ∧
    st_labels st' = st_labels st ++ map (label_id self) batch.
Proof.
  induction batch as [|s batch IH]; intros st st' Hrun.
  - cbn in Hrun. injection Hrun as <-. by rewrite app_nil_r.
  - cbn [for_each] in Hrun.
    destruct (loop_body self st s) as [st1|e] eqn:Hbody; [|done].
    cbn in Hrun. apply loop_body_Ok_inv in Hbody as [Hs Hl1].
    apply IH in Hrun as [Hall Hl']. cbn [forallb map].
    rewrite Hs, Hall, Hl', Hl1, <- app_assoc. done.
Qed.

Lemma Collator_call_returns_iff (self : Collator) (batch : list sample) :
  (∃ r, Collator_call self batch = Ok r) ↔
  batch ≠ [] ∧ forallb (encodes self) batch = true.
Proof.
  split.
  - intros [r Hr].
    assert (batch ≠ []) as Hne by (by intros ->).
    unfold Collator_call in Hr.
    destruct (for_each (loop_body self) loop_init batch) as [st|e] eqn:Hrun;
      [|done].
    cbn in Hr. apply for_each_Ok_inv in Hrun as [Hall Hlabels].
    cbn in Hlabels. rewrite Hlabels in Hr.
    destruct (torch_tensor_int64 (map (label_id self) batch)) as [t|e] eqn:Ht;
      [|done].
    apply torch_tensor_int64_inv in Ht as [_ Hfit]. split; [done|].
    clear Hr Hlabels Hne t. induction batch as [|s batch IH]; [done|].
    cbn in Hall, Hfit |- *.
    apply andb_true_iff in Hall as [Hs Hall].
    apply andb_true_iff in Hfit as [Hl Hfit].
    rewrite (IH Hall Hfit), andb_true_r. unfold encodes.
    destruct (encode self s) as [[l t]|e] eqn:Henc; [|done].
    by rewrite (encode_label_id _ _ _ _ Henc).
  - intros [Hne Hall]. eexists. by apply Collator_call_encodes.
Qed.

(** ** Offsets as running sums *)

Lemma cumsum_from_length (xs : list Z) :
  ∀ acc : Z, length (cumsum_from acc xs) = length xs.
Proof. induction xs as [|x xs IH]; intros acc; cbn; [done|]. by rewrite IH. Qed.

Lemma cumsum_from_lookup (xs : list Z) :
  ∀ (acc : Z) (i : nat),
    (i < length xs)%nat →
    cumsum_from acc xs !! i = Some (acc + sumZ (take (S i) xs)).
Proof.
  induction xs as [|x xs IH]; intros acc i Hi; cbn in Hi; [lia|].
  destruct i as [|i].
  - cbn. rewrite take_0. cbn. f_equal. lia.
  - cbn [cumsum_from lookup list_lookup]. rewrite IH by lia.
    rewrite (firstn_cons (S i) x xs). cbn [sumZ foldr].
    fold (sumZ (take (S i) xs)). f_equal. lia.
Qed.

Lemma py_drop_last_cons {A} (x : A) (xs : list A) :
  py_drop_last (x :: xs) = take (length xs) (x :: xs).
Proof. unfold py_drop_last. cbn [length]. by rewrite Nat.sub_1_r. Qed.

Lemma offsets_length (lens : list Z) :
  length (cumsum (py_drop_last (0 :: lens))) = length lens.
Proof.
  unfold cumsum. rewrite cumsum_from_length, py_drop_last_cons, length_take.
  cbn [length]. lia.
Qed.

Lemma offsets_lookup (lens : list Z) (i : nat) :
  (i < length lens)%nat →
  cumsum (py_drop_last (0 :: lens)) !! i = Some (sumZ (take i lens)).
Proof.
  intros Hi. unfold cumsum. rewrite py_drop_last_cons.
  rewrite cumsum_from_lookup by (rewrite length_take; cbn [length]; lia).
  rewrite take_take, Nat.min_l by lia.
  rewrite firstn_cons. cbn. done.
Qed.

Lemma sumZ_sizes {A} (f : A → list Z) (xs : list A) :
  sumZ (map (λ s, size0 (f s)) xs) = size0 (concat (map f xs)).
Proof.
  unfold size0. induction xs as [|x xs IH]; [done|].
  cbn. rewrite length_app, Nat2Z.inj_add. unfold sumZ in IH. by rewrite IH.
Qed.

Lemma start_of_lookup (self : Collator) (batch : list sample) (i : nat) :
  (i < length batch)%nat →
  cumsum (py_drop_last (0 :: map (λ s, size0 (token_ids self s)) batch)) !! i
  = Some (start_of self batch i).
Proof.
  intros Hi. rewrite offsets_lookup by (by rewrite length_map).
  by rewrite firstn_map, sumZ_sizes.
Qed.

Lemma start_of_S (self : Collator) (batch : list sample) (i : nat) (s : sample) :
  batch !! i = Some s →
  start_of self batch (S i) = start_of self batch i + size0 (token_ids self s).
Proof.
  intros Hs. unfold start_of, size0.
  rewrite (take_S_r _ _ _ Hs), map_app, concat_app, length_app. cbn.
  rewrite app_nil_r. lia.
Qed.

Lemma start_of_all (self : Collator) (batch : list sample) :
  start_of self batch (length batch) =
  size0 (concat (map (token_ids self) batch)).
Proof. unfold start_of. by rewrite firstn_all. Qed.

Lemma start_of_nonneg (self : Collator) (batch : list sample) (i : nat) :
  0 ≤ start_of self batch i.
Proof. unfold start_of, size0. lia. Qed.

(** The ids of sample [i] sit in the buffer right after [start_of .. i]. *)
Lemma buffer_split (self : Collator) (batch : list sample) (i : nat) (s : sample) :
  batch !! i = Some s →
  concat (map (token_ids self) batch) =
    concat (map (token_ids self) (take i batch)) ++ token_ids self s ++
    concat (map (token_ids self) (drop (S i) batch)).
Proof.
  intros Hs. rewrite <- (take_drop_middle _ _ _ Hs) at 1.
  rewrite map_app, concat_app. done.
Qed.

Lemma last_lookup_pred {A} (xs : list A) :
  last xs = xs !! (length xs - 1)%nat.
Proof. rewrite last_lookup. f_equal. lia. Qed.

Lemma py_slice_sample (self : Collator) (batch : list sample) (i : nat) (s : sample) :
  batch !! i = Some s →
  py_slice (concat (map (token_ids self) batch))
           (start_of self batch i) (start_of self batch (S i))
  = token_ids self s.
Proof.
  intros Hs. unfold py_slice.
  rewrite (start_of_S _ _ _ _ Hs), (buffer_split _ _ _ _ Hs).
  unfold start_of, size0. rewrite Z2Nat.inj_add, !Nat2Z.id by lia.
  rewrite drop_app_length.
  replace (_ + _ - _)%nat with (length (token_ids self s)) by lia.
  by rewrite take_app_length.
Qed.

(** The end of the span of sample [i]: the next offset, or the end of the
    buffer for the last sample. *)
Lemma stop_of_sample (self : Collator) (batch : list sample) (i : nat) (s : sample) :
  batch !! i = Some s →
  default (size0 (concat (map (token_ids self) batch)))
    (cumsum (py_drop_last (0 :: map (λ s, size0 (token_ids self s)) batch))
       !! S i)
  = start_of self batch (S i).
Proof.
  intros Hs. apply lookup_lt_Some in Hs.
  destruct (decide (S i < length batch)%nat) as [Hlt|Hge].
  - by rewrite start_of_lookup.
  - rewrite lookup_ge_None_2 by (rewrite offsets_length, length_map; lia).
    cbn. replace (S i) with (length batch) by lia. by rewrite start_of_all.
Qed.

Lemma offsets_lookup_inv (self : Collator) (batch : list sample) (i : nat) (x : Z) :
  cumsum (py_drop_last (0 :: map (λ s, size0 (token_ids self s)) batch)) !! i
  = Some x →
  (i < length batch)%nat ∧ x = start_of self batch i.
Proof.
  intros Hx. pose proof (lookup_lt_Some _ _ _ Hx) as Hi.
  rewrite offsets_length, length_map in Hi. split; [done|].
  rewrite start_of_lookup in Hx by done. congruence.
Qed.

Lemma last_sample (batch : list sample) :
  batch ≠ [] → ∃ s_last, batch !! (length batch - 1)%nat = Some s_last.
Proof.
  intros Hne. apply lookup_lt_is_Some_2.
  destruct batch; [done|]. cbn. lia.
Qed.

(** ** The claims about [Collator.__call__] *)

(** C1.  For every batch that is not empty and whose samples the two
    pipelines encode (by [Collator_call_returns_iff] these are the batches on
    which the call returns at all), [Collator.__call__] returns, its offsets
    are as many as the samples, and the last offset plus the number of token
    ids of the last sample is the length of the flat [texts]. *)
Theorem collate_offsets_count_and_final_span
    (self : Collator) (batch : list sample) :
  batch ≠ [] →
  forallb (encodes self) batch = true →
  ∃ labels texts offsets : list Z,
    Collator_call self batch = Ok (labels, texts, offsets) ∧
    length offsets = length batch ∧
    ∃ (off_last : Z) (s_last : sample),
      last offsets = Some off_last ∧ last batch = Some s_last ∧
      off_last + size0 (token_ids self s_last) = size0 texts.
Proof.
  intros Hne Hall. rewrite (Collator_call_encodes _ _ Hne Hall).
  eexists _, _, _. split; [reflexivity|].
  split; [by rewrite offsets_length, length_map|].
  destruct (last_sample batch Hne) as [s_last Hlast].
  exists (start_of self batch (length batch - 1)), s_last.
  assert (length batch ≠ 0%nat) as Hlen by (by destruct batch).
  rewrite !last_lookup_pred, offsets_length, length_map.
  split; [apply start_of_lookup; lia|]. split; [done|].
  rewrite <- (start_of_S _ _ _ _ Hlast), <- start_of_all.
  f_equal. lia.
Qed.

Lemma collate_offsets_count_and_final_span_witness :
  ∃ labels texts offsets : list Z,
    Collator_call (IMDB.collator demo_vocab spacy_like_tokenizer)
      [(PyStr "pos", "a great film"%string); (PyStr "neg", "bad"%string)]
    = Ok (labels, texts, offsets) ∧
    length offsets = 2%nat ∧
    ∃ (off_last : Z) (s_last : sample),
      last offsets = Some off_last ∧
      last [(PyStr "pos", "a great film"%string); (PyStr "neg", "bad"%string)]
      = Some s_last ∧
      off_last +
        size0 (token_ids (IMDB.collator demo_vocab spacy_like_tokenizer) s_last)
      = size0 texts.
Proof.
  apply (collate_offsets_count_and_final_span
           (IMDB.collator demo_vocab spacy_like_tokenizer)
           [(PyStr "pos", "a great film"%string); (PyStr "neg", "bad"%string)]).
  - discriminate.
  - vm_compute. reflexivity.
Defined.

(** C6.  For every batch that is not empty (and whose samples the two
    pipelines encode), the flat [texts] is the concatenation, in batch order,
    of the id sequences of the samples, nothing cut and nothing added: the
    slice between the offset of a sample and the next offset (the end of
    [texts] for the last sample) is the id sequence of that sample. *)
Theorem collate_texts_is_concatenation
    (self : Collator) (batch : list sample) :
  batch ≠ [] →
  forallb (encodes self) batch = true →
  ∃ labels texts offsets : list Z,
    Collator_call self batch = Ok (labels, texts, offsets) ∧
    texts = concat (map (token_ids self) batch) ∧
    ∀ (i : nat) (s : sample),
      batch !! i = Some s →
      ∃ start : Z,
        offsets !! i = Some start ∧
        py_slice texts start (default (size0 texts) (offsets !! S i))
        = token_ids self s.
Proof.
  intros Hne Hall. rewrite (Collator_call_encodes _ _ Hne Hall).
  eexists _, _, _. split; [reflexivity|]. split; [reflexivity|].
  intros i s Hs. exists (start_of self batch i).
  split; [apply start_of_lookup; by eapply lookup_lt_Some|].
  rewrite (stop_of_sample _ _ _ _ Hs). by apply py_slice_sample.
Qed.

Lemma collate_texts_is_concatenation_witness :
  ∃ labels texts offsets : list Z,
    Collator_call (IMDB.collator demo_vocab spacy_like_tokenizer)
      [(PyStr "pos", "a great film"%string); (PyStr "neg", ""%string);
       (PyStr "neg", "bad"%string)]
    = Ok (labels, texts, offsets) ∧
    texts =
      concat (map (token_ids (IMDB.collator demo_vocab spacy_like_tokenizer))
                [(PyStr "pos", "a great film"%string); (PyStr "neg", ""%string);
                 (PyStr "neg", "bad"%string)]) ∧
    ∀ (i : nat) (s : sample),
      [(PyStr "pos", "a great film"%string); (PyStr "neg", ""%string);
       (PyStr "neg", "bad"%string)] !! i = Some s →
      ∃ start : Z,
        offsets !! i = Some start ∧
        py_slice texts start (default (size0 texts) (offsets !! S i))
        = token_ids (IMDB.collator demo_vocab spacy_like_tokenizer) s.
Proof.
  apply (collate_texts_is_concatenation
           (IMDB.collator demo_vocab spacy_like_tokenizer)).
  - discriminate.
  - vm_compute. reflexivity.
Defined.

(** C9.  On the empty batch [Collator.__call__] raises (the [RuntimeError]
    of [torch.cat] on an empty list) whatever the pipelines are, and so
    returns no encoded batch, whole or partial. *)
Theorem collate_empty_batch_raises (self : Collator) :
  Collator_call self [] = Raise RuntimeError ∧
  ∀ r : list Z * list Z * list Z, Collator_call self [] ≠ Ok r.
Proof. split; [reflexivity|]. intros r. discriminate. Qed.

(** C3, as stated, fails: a sample whose text has no token takes no room in
    the buffer, so the next sample starts at the same offset.  Here the
    first review is the empty string and both offsets are 0. *)
Lemma collate_offsets_not_strictly_increasing :
  Collator_call (IMDB.collator demo_vocab spacy_like_tokenizer)
    [(PyStr "neg", ""%string); (PyStr "pos", "great film"%string)]
  = Ok ([0; 1], [4; 2], [0; 0]) ∧
  ¬ strictly_increasing [0; 0].
Proof.
  split; [vm_compute; reflexivity|].
  intros Hinc. specialize (Hinc 0%nat 0 0 eq_refl eq_refl). lia.
Qed.

(** C3, amended.  For every batch that is not empty (and whose samples the
    two pipelines encode), the offsets never decrease: the first is 0 and
    each sample starts where the sample before it starts plus the number of
    token ids of that sample; they are strictly increasing exactly when every sample but the
    last has at least one token id; and the span of the last sample runs from
    the last offset to the end of the flat [texts]. *)
Theorem collate_offsets_monotone (self : Collator) (batch : list sample) :
  batch ≠ [] →
  forallb (encodes self) batch = true →
  ∃ labels texts offsets : list Z,
    Collator_call self batch = Ok (labels, texts, offsets) ∧
    length offsets = length batch ∧
    offsets !! 0%nat = Some 0 ∧
    (∀ (i : nat) (s : sample) (x : Z),
       batch !! i = Some s → (S i < length batch)%nat →
       offsets !! i = Some x →
       offsets !! S i = Some (x + size0 (token_ids self s))) ∧
    non_decreasing offsets ∧
    (strictly_increasing offsets ↔
     ∀ (i : nat) (s : sample),
       (S i < length batch)%nat → batch !! i = Some s → token_ids self s ≠ []) ∧
    ∃ (off_last : Z) (s_last : sample),
      last offsets = Some off_last ∧ last batch = Some s_last ∧
      py_slice texts off_last (size0 texts) = token_ids self s_last.
Proof.
  intros Hne Hall. rewrite (Collator_call_encodes _ _ Hne Hall).
  eexists _, _, _. split; [reflexivity|].
  set (offsets :=
         cumsum (py_drop_last (0 :: map (λ s, size0 (token_ids self s)) batch))).
  assert (∀ i x y, offsets !! i = Some x → offsets !! S i = Some y →
            ∃ s, (S i < length batch)%nat ∧ batch !! i = Some s ∧
                 y = x + size0 (token_ids self s)) as Hstep.
  { intros i x y Hx Hy.
    apply offsets_lookup_inv in Hx as [Hi ->].
    apply offsets_lookup_inv in Hy as [HSi ->].
    destruct (lookup_lt_is_Some_2 batch i Hi) as [s Hs].
    exists s. split; [done|]. split; [done|]. by apply start_of_S. }
  split; [|split; [|split; [|split; [|split]]]].
  - subst offsets. by rewrite offsets_length, length_map.
  - subst offsets.
    rewrite start_of_lookup by (destruct batch; [done|cbn; lia]). done.
  - intros i s x Hs HSi Hx. subst offsets.
    apply offsets_lookup_inv in Hx as [_ ->].
    rewrite start_of_lookup by done. by rewrite (start_of_S _ _ _ _ Hs).
  - intros i x y Hx Hy. destruct (Hstep i x y Hx Hy) as (s & _ & _ & ->).
    unfold size0. lia.
  - split.
    + intros Hinc i s HSi Hs Hnil.
      assert (i < length batch)%nat as Hi by lia.
      pose proof (Hinc i _ _ (start_of_lookup self batch i Hi)
                    (start_of_lookup self batch (S i) HSi)) as Hlt.
      rewrite (start_of_S _ _ _ _ Hs), Hnil in Hlt. unfold size0 in Hlt.
      cbn [length] in Hlt. lia.
    + intros Hpos i x y Hx Hy.
      destruct (Hstep i x y Hx Hy) as (s & HSi & Hs & ->).
      specialize (Hpos i s HSi Hs). unfold size0.
      destruct (token_ids self s); [done|]. cbn [length]. lia.
  - destruct (last_sample batch Hne) as [s_last Hlast].
    exists (start_of self batch (length batch - 1)), s_last.
    assert (length batch ≠ 0%nat) as Hlen by (by destruct batch).
    subst offsets. rewrite !last_lookup_pred, offsets_length, length_map.
    split; [apply start_of_lookup; lia|]. split; [done|].
    rewrite <- (py_slice_sample _ _ _ _ Hlast). f_equal.
    rewrite <- start_of_all. f_equal. lia.
Qed.

Lemma collate_offsets_monotone_witness :
  let self := IMDB.collator demo_vocab spacy_like_tokenizer in
  let batch :=
    [(PyStr "neg", "bad film"%string); (PyStr "neg", ""%string);
     (PyStr "pos", "a great film"%string)] in
  ∃ labels texts offsets : list Z,
    Collator_call self batch = Ok (labels, texts, offsets) ∧
    length offsets = length batch ∧
    offsets !! 0%nat = Some 0 ∧
    (∀ (i : nat) (s : sample) (x : Z),
       batch !! i = Some s → (S i < length batch)%nat →
       offsets !! i = Some x →
       offsets !! S i = Some (x + size0 (token_ids self s))) ∧
    non_decreasing offsets ∧
    (strictly_increasing offsets ↔
     ∀ (i : nat) (s : sample),
       (S i < length batch)%nat → batch !! i = Some s → token_ids self s ≠ []) ∧
    ∃ (off_last : Z) (s_last : sample),
      last offsets = Some off_last ∧ last batch = Some s_last ∧
      py_slice texts off_last (size0 texts) = token_ids self s_last.
Proof.
  intros self batch.
  apply (collate_offsets_monotone self batch).
  - discriminate.
  - vm_compute. reflexivity.
Defined.

(** ** The pipelines *)

Lemma lookup_map {A B} (f : A → B) (xs : list A) (i : nat) :
  map f xs !! i = f <$> xs !! i.
Proof.
  revert i. induction xs as [|x xs IH]; intros [|i]; cbn; try done.
Qed.

Lemma Vocab_getitem_in_int64 (v : Vocab) (token : string) :
  in_int64 (Vocab_getitem v token) = true.
Proof.
  unfold Vocab_getitem, int64_val.
  by destruct (default (unk_index v) (stoi v !! token)) as [z Hz].
Qed.

Lemma Vocab_getitem_known (v : Vocab) (token : string) (id : int64) :
  stoi v !! token = Some id → Vocab_getitem v token = int64_val id.
Proof. intros Hid. unfold Vocab_getitem. by rewrite Hid. Qed.

Lemma Vocab_getitem_unknown (v : Vocab) (token : string) :
  stoi v !! token = None → Vocab_getitem v token = int64_val (unk_index v).
Proof. intros Hid. unfold Vocab_getitem. by rewrite Hid. Qed.

(** C4.  A token that is not in the vocabulary gets the id reserved for
    unknown tokens: wherever the tokenizer yields such a token,
    [TextPipeline.__call__] (a total function: it has no way to raise) puts
    that id at the same position of its result, which has one id per
    token. *)
Theorem unseen_token_gets_unknown_id
    (self : AGNews.TextPipeline) (text token : string) (i : nat) :
  AGNews.tokenizer self text !! i = Some token →
  stoi (AGNews.vocab self) !! token = None →
  AGNews.TextPipeline_call self text !! i
  = Some (int64_val (unk_index (AGNews.vocab self))) ∧
  length (AGNews.TextPipeline_call self text)
  = length (AGNews.tokenizer self text).
Proof.
  intros Htok Hunseen. unfold AGNews.TextPipeline_call. split.
  - rewrite lookup_map, Htok. cbn. by rewrite Vocab_getitem_unknown.
  - apply length_map.
Qed.

Lemma unseen_token_gets_unknown_id_witness :
  AGNews.TextPipeline_call
    {| AGNews.vocab := demo_vocab; AGNews.tokenizer := whitespace_tokenizer |}
    "great zyzzyva film" !! 1%nat
  = Some 0 ∧
  length (AGNews.TextPipeline_call
            {| AGNews.vocab := demo_vocab;
               AGNews.tokenizer := whitespace_tokenizer |}
            "great zyzzyva film")
  = length (whitespace_tokenizer "great zyzzyva film").
Proof.
  apply (unseen_token_gets_unknown_id
           {| AGNews.vocab := demo_vocab;
              AGNews.tokenizer := whitespace_tokenizer |}
           "great zyzzyva film" "zyzzyva" 1).
  - vm_compute. reflexivity.
  - vm_compute. reflexivity.
Defined.

(** The same holds of the pipeline of the sentiment notebook, which reads
    the [text] of each spaCy token. *)
Lemma spacy_token_unseen_maps_to_unknown
    (self : IMDB.TextPipeline) (text : string) (token : IMDB.Token) (i : nat) :
  IMDB.tokenizer self text !! i = Some token →
  stoi (IMDB.vocab self) !! IMDB.token_text token = None →
  IMDB.TextPipeline_call self text !! i
  = Some (int64_val (unk_index (IMDB.vocab self))).
Proof.
  intros Htok Hunseen. unfold IMDB.TextPipeline_call.
  rewrite lookup_map, Htok. cbn. by rewrite Vocab_getitem_unknown.
Qed.

(** ** [int] on plain decimal numerals

    Every string of decimal digits is a label that [int] reads, as the
    number the digits denote; so the labels ["1"], ["2"], ... of the topic
    data set are among those C5 speaks of. *)

Lemma digit_char_facts (d : nat) :
  (d < 10)%nat →
  is_digit (digit_char d) = true ∧ is_int_space (digit_char d) = false ∧
  digit_value (digit_char d) = Z.of_nat d ∧
  digit_char d ≠ "-"%char ∧ digit_char d ≠ "+"%char.
Proof.
  intros Hd.
  do 10 (destruct d as [|d]; [vm_compute; repeat split; discriminate|]). lia.
Qed.

Lemma lstrip_no_space (cs : list ascii) :
  Forall (λ c, is_int_space c = false) cs → lstrip cs = cs.
Proof. intros Hcs. destruct Hcs as [|c cs Hc _]; [done|]. cbn. by rewrite Hc. Qed.

Lemma strip_no_space (cs : list ascii) :
  Forall (λ c, is_int_space c = false) cs → strip cs = cs.
Proof.
  intros Hcs. unfold strip. rewrite (lstrip_no_space cs Hcs).
  rewrite lstrip_no_space; [apply rev_involutive|].
  apply Forall_forall. intros c Hc. apply list_elem_of_In, in_rev in Hc.
  rewrite Forall_forall in Hcs. by apply Hcs, list_elem_of_In.
Qed.

Lemma digits_numeral (ds : list nat) :
  ∀ (acc : Z) (after_digit : bool),
    Forall (λ d, (d < 10)%nat) ds →
    (ds ≠ [] ∨ after_digit = true) →
    digits acc after_digit (map digit_char ds)
    = Some (foldl (λ acc d, 10 * acc + Z.of_nat d) acc ds).
Proof.
  induction ds as [|d ds IH]; intros acc after_digit Hds Hne.
  - destruct Hne as [Hne| ->]; done.
  - apply Forall_cons in Hds as [Hd Hds].
    destruct (digit_char_facts d Hd) as (Hdig & _ & Hval & _).
    cbn [map digits foldl]. rewrite Hdig, Hval. apply IH; [done|by right].
Qed.

Lemma py_int_numeral (ds : list nat) :
  ds ≠ [] →
  Forall (λ d, (d < 10)%nat) ds →
  py_int (PyStr (numeral ds)) = Ok (numeral_value ds).
Proof.
  intros Hne Hds. unfold py_int, numeral, int_of_literal.
  rewrite list_ascii_of_string_of_list_ascii, strip_no_space.
  - destruct ds as [|d ds]; [done|].
    pose proof Hds as Hds'. apply Forall_cons in Hds' as [Hd _].
    destruct (digit_char_facts d Hd) as (_ & _ & _ & Hminus & Hplus).
    assert (∀ c cs,
              c ≠ "-"%char → c ≠ "+"%char →
              match c :: cs with
              | "-"%char :: ds' => Z.opp <$> digits 0 false ds'
              | "+"%char :: ds' => digits 0 false ds'
              | ds' => digits 0 false ds'
              end = digits 0 false (c :: cs)) as Hsign.
    { intros c cs Hm Hp.
      destruct c as [[] [] [] [] [] [] [] []]; try done. }
    cbn [map]. rewrite (Hsign _ _ Hminus Hplus).
    change (digit_char d :: map digit_char ds) with (map digit_char (d :: ds)).
    rewrite digits_numeral; [done|done|by left].
  - apply Forall_forall. intros c Hc.
    apply list_elem_of_In, in_map_iff in Hc as (d & <- & Hd).
    rewrite Forall_forall in Hds.
    by destruct (digit_char_facts d (Hds d (proj2 (list_elem_of_In _ _) Hd)))
      as (_ & Hsp & _).
Qed.

Example py_int_numeral_ex :
  numeral [1; 2; 0]%nat = "120"%string ∧ numeral_value [1; 2; 0]%nat = 120.
Proof. split; reflexivity. Qed.

(** A sample goes through the topic collator exactly when [int] reads its
    label and the class id fits. *)
Lemma AGNews_collator_encodes
    (v : Vocab) (tok : string → list string) (s : sample) :
  encodes (AGNews.collator v tok) s = true ↔
  ∃ n : Z, py_int s.1 = Ok n ∧ in_int64 (n - 1) = true.
Proof.
  unfold encodes, encode. cbn. unfold AGNews.LabelPipeline_call.
  destruct (py_int s.1) as [n|e]; cbn.
  - rewrite torch_tensor_int64_Ok.
    + cbn. split; [by exists n|]. by intros (n' & [= <-] & Hn).
    + unfold AGNews.TextPipeline_call. cbn.
      induction (tok s.2) as [|t ts IH]; [done|].
      cbn. by rewrite Vocab_getitem_in_int64.
  - split; [done|]. by intros (n' & Hn & _).
Qed.

(** C5.  A label of the topic data set that reads as an integer [n] between
    1 and [num_classes] (a string such as ["3"], or the integer itself) is
    mapped by the topic [LabelPipeline] to [n - 1], which is a class id from
    0 up to and excluding [num_classes].  The strings that [py_int] reads are
    made of ASCII digits, underscores, a sign and the white space that [int]
    strips, the characters 9 to 13 and the blank; on these it is the
    builtin. *)
Theorem topic_label_shifts_to_class_id (label : pyval) (n num_classes : Z) :
  py_int label = Ok n →
  1 ≤ n ≤ num_classes →
  AGNews.LabelPipeline_call label = Ok (n - 1) ∧ 0 ≤ n - 1 < num_classes.
Proof.
  intros Hint Hrange. unfold AGNews.LabelPipeline_call.
  rewrite Hint. cbn. split; [done|lia].
Qed.

Lemma topic_label_shifts_to_class_id_witness :
  AGNews.LabelPipeline_call (PyStr "3") = Ok (3 - 1) ∧ 0 ≤ 3 - 1 < 4.
Proof.
  apply (topic_label_shifts_to_class_id (PyStr "3") 3 4).
  - reflexivity.
  - lia.
Defined.

(** C10.  The sentiment [LabelPipeline] returns 0 for the label ["neg"] and
    for no other value, and 1 for every other value, whatever it is; it
    rejects nothing. *)
Theorem sentiment_label_is_neg_or_one (label : pyval) :
  (IMDB.LabelPipeline_call label = 0 ↔ label = PyStr "neg") ∧
  (IMDB.LabelPipeline_call label = 1 ↔ label ≠ PyStr "neg").
Proof.
  unfold IMDB.LabelPipeline_call, py_eq.
  destruct (decide (label = PyStr "neg")) as [Heq|Hne].
  - rewrite bool_decide_eq_true_2 by done. split; split; done.
  - rewrite bool_decide_eq_false_2 by done. split; split; done.
Qed.

(** ** The sentiment collator on two reviews *)

(** The pipelines of the sentiment notebook never raise and only produce
    ids that fit, so every sample encodes. *)
Lemma IMDB_collator_encodes
    (v : Vocab) (tok : string → list IMDB.Token) (s : sample) :
  encodes (IMDB.collator v tok) s = true.
Proof.
  unfold encodes, encode. cbn.
  rewrite torch_tensor_int64_Ok.
  - cbn. unfold IMDB.LabelPipeline_call. by destruct (py_eq s.1 (PyStr "neg")).
  - unfold IMDB.TextPipeline_call. cbn.
    induction (tok s.2) as [|t ts IH]; [done|].
    cbn. by rewrite Vocab_getitem_in_int64.
Qed.

Lemma IMDB_collator_encodes_all
    (v : Vocab) (tok : string → list IMDB.Token) (batch : list sample) :
  forallb (encodes (IMDB.collator v tok)) batch = true.
Proof.
  induction batch as [|s batch IH]; [done|].
  cbn [forallb]. by rewrite IMDB_collator_encodes.
Qed.

Lemma IMDB_token_ids (v : Vocab) (tok : string → list IMDB.Token) (s : sample) :
  token_ids (IMDB.collator v tok) s =
  map (λ token, Vocab_getitem v (IMDB.token_text token)) (tok s.2).
Proof. reflexivity. Qed.

Lemma IMDB_label_id (v : Vocab) (tok : string → list IMDB.Token) (s : sample) :
  label_id (IMDB.collator v tok) s = IMDB.LabelPipeline_call s.1.
Proof. reflexivity. Qed.

(** C2.  With the sentiment collator, over any vocabulary and any tokenizer
    that cuts each of the two texts into two tokens, the batch
    [("neg", "bad film"), ("pos", "great film")] collates to the labels
    [0, 1], a flat tensor of four ids and the offsets [0, 2]. *)
Theorem collate_two_reviews (v : Vocab) (tok : string → list IMDB.Token) :
  length (tok "bad film") = 2%nat →
  length (tok "great film") = 2%nat →
  ∃ texts : list Z,
    Collator_call (IMDB.collator v tok)
      [(PyStr "neg", "bad film"%string); (PyStr "pos", "great film"%string)]
    = Ok ([0; 1], texts, [0; 2]) ∧
    length texts = 4%nat.
Proof.
  intros Hbad Hgreat.
  rewrite Collator_call_encodes;
    [|discriminate|apply IMDB_collator_encodes_all].
  exists (map (λ token, Vocab_getitem v (IMDB.token_text token))
            (tok "bad film") ++
          map (λ token, Vocab_getitem v (IMDB.token_text token))
            (tok "great film") ++ []).
  cbn [map concat].
  rewrite !IMDB_label_id, !IMDB_token_ids. unfold size0. cbn [fst snd].
  rewrite !length_map, Hbad, Hgreat.
  assert (IMDB.LabelPipeline_call (PyStr "neg") = 0) as ->
    by (vm_compute; reflexivity).
  assert (IMDB.LabelPipeline_call (PyStr "pos") = 1) as ->
    by (vm_compute; reflexivity).
  split; [reflexivity|].
  rewrite app_nil_r, length_app, !length_map, Hbad, Hgreat. reflexivity.
Qed.

Lemma collate_two_reviews_witness :
  ∃ texts : list Z,
    Collator_call (IMDB.collator demo_vocab spacy_like_tokenizer)
      [(PyStr "neg", "bad film"%string); (PyStr "pos", "great film"%string)]
    = Ok ([0; 1], texts, [0; 2]) ∧
    length texts = 4%nat.
Proof.
  apply (collate_two_reviews demo_vocab spacy_like_tokenizer).
  - reflexivity.
  - reflexivity.
Defined.


(** ** The embedding bag on a sample of one token *)

#[global] Instance Qc_num_laws : NumLaws Qc.
Proof.
  split.
  - intros x. cbn. apply Qcplus_0_l.
  - intros x. cbn. unfold Qcdiv.
    replace (/ Q2Qc (inject_Z 1))%Qc with (Q2Qc 1) by (by apply Qc_is_canon).
    apply Qcmult_1_r.
Qed.

Section EmbeddingBagFacts.
Context {F : Type} `{NumLaws F}.

Lemma weight_row_length (e : EmbeddingBag F) (i : nat) :
  length (weight_row e i) = embedding_dim e.
Proof. unfold weight_row. by rewrite length_map, length_seq. Qed.

Lemma vadd_zeros (u : list F) : vadd (replicate (length u) fzero) u = u.
Proof.
  unfold vadd. induction u as [|x u IH]; [done|].
  cbn. by rewrite fadd_0_l, IH.
Qed.

Lemma map_fdiv_1 (u : list F) : map (λ x, fdiv x 1) u = u.
Proof.
  induction u as [|x u IH]; [done|]. cbn. by rewrite fdiv_1_r, IH.
Qed.

(** The mean of a bag that holds one row is that row. *)
Lemma bag_mean_single (e : EmbeddingBag F) (i : nat) :
  bag_mean (embedding_dim e) [weight_row e i] = weight_row e i.
Proof.
  unfold bag_mean, vsum. cbn [length foldl Z.of_nat Pos.of_succ_nat].
  rewrite <- (weight_row_length e i) at 1.
  by rewrite vadd_zeros, map_fdiv_1.
Qed.

Lemma embed_in_range (e : EmbeddingBag F) (id : Z) :
  0 ≤ id < Z.of_nat (num_embeddings e) →
  embed e id = Ok (weight_row e (Z.to_nat id)).
Proof.
  intros [Hlo Hhi]. unfold embed.
  apply Z.leb_le in Hlo. apply Z.ltb_lt in Hhi. by rewrite Hlo, Hhi.
Qed.

Lemma EmbeddingBag_call_single (e : EmbeddingBag F) (id : Z) :
  0 ≤ id < Z.of_nat (num_embeddings e) →
  EmbeddingBag_call e [id] [0] = Ok [weight_row e (Z.to_nat id)].
Proof.
  intros Hid. unfold EmbeddingBag_call, bag_bounds, py_slice, size0.
  cbn -[embed bag_mean].
  change (take _ (drop _ [id])) with [id].
  cbn -[embed bag_mean]. rewrite (embed_in_range _ _ Hid).
  cbn -[bag_mean]. by rewrite bag_mean_single.
Qed.

End EmbeddingBagFacts.

(** C8.  A sample of exactly one token: the collator encodes it as the
    one-id buffer with the one offset 0, and on these the embedding bag (the
    mean over the span of the sample) returns exactly row [id] of the
    embedding table, the raw vector of that token; [forward] hands that very
    row to the feed-forward stack. *)
Theorem single_token_sample_keeps_its_embedding
    {F : Type} `{NumLaws F}
    (self : Collator) (model : TextClassificationModel F)
    (label : pyval) (text : string) (id : Z) :
  encodes self (label, text) = true →
  text_pipeline self text = Ok [id] →
  0 ≤ id < Z.of_nat (num_embeddings (embedding model)) →
  ∃ labels texts offsets : list Z,
    Collator_call self [(label, text)] = Ok (labels, texts, offsets) ∧
    texts = [id] ∧
    EmbeddingBag_call (embedding model) texts offsets
    = Ok [weight_row (embedding model) (Z.to_nat id)] ∧
    forward model texts offsets
    = Ok [fc model (weight_row (embedding model) (Z.to_nat id))].
Proof.
  intros Henc Hids Hid.
  rewrite Collator_call_encodes; [|discriminate|by cbn; rewrite Henc].
  eexists _, _, _. split; [reflexivity|].
  unfold token_ids. cbn [map concat snd]. rewrite Hids. cbn [app].
  split; [reflexivity|].
  unfold forward. change (cumsum _) with [0 + 0].
  rewrite (EmbeddingBag_call_single _ _ Hid). done.
Qed.

Lemma single_token_sample_keeps_its_embedding_witness :
  let table : EmbeddingBag Qc :=
    {| num_embeddings := 5; embedding_dim := 3;
       weight := λ i j, Q2Qc (Z.of_nat i # Pos.of_succ_nat j) |} in
  let model : TextClassificationModel Qc :=
    {| embedding := table; fc := λ row, row |} in
  ∃ labels texts offsets : list Z,
    Collator_call (IMDB.collator demo_vocab spacy_like_tokenizer)
      [(PyStr "pos", "film"%string)]
    = Ok (labels, texts, offsets) ∧
    texts = [2] ∧
    EmbeddingBag_call table texts offsets = Ok [weight_row table 2] ∧
    forward model texts offsets = Ok [weight_row table 2].
Proof.
  intros table model.
  apply (single_token_sample_keeps_its_embedding
           (IMDB.collator demo_vocab spacy_like_tokenizer) model
           (PyStr "pos") "film" 2).
  - vm_compute. reflexivity.
  - vm_compute. reflexivity.
  - cbn. lia.
Defined.

(** ** The epoch driver *)

Lemma Qgtb_true (a b : Q) : Qgtb a b = true ↔ (b < a)%Q.
Proof.
  unfold Qgtb. rewrite negb_true_iff, <- not_true_iff_false, Qle_bool_iff.
  split; [apply Qnot_le_lt | apply Qlt_not_le].
Qed.

Lemma Qgtb_false (a b : Q) : Qgtb a b = false ↔ (a <= b)%Q.
Proof. unfold Qgtb. by rewrite negb_false_iff, Qle_bool_iff. Qed.

(** A step of the scheduler lowers a positive learning rate. *)
Lemma scheduler_step_decays (s : StepLR) :
  (0 < lr s)%Q → (lr (scheduler_step s) < lr s)%Q.
Proof.
  intros Hpos. cbn. unfold gamma.
  rewrite <- (Qmult_1_r (lr s)) at 2.
  apply Qmult_lt_l; [done|]. reflexivity.
Qed.

Lemma scheduler_step_counts (s : StepLR) :
  last_epoch (scheduler_step s) = S (last_epoch s).
Proof. reflexivity. Qed.

(** The two branches of the driver after an evaluation. *)
Lemma epoch_update_cases (st : driver_state) (accu_val : Q) :
  (∃ best : Q,
      total_accu st = Some best ∧ (accu_val < best)%Q ∧
      epoch_update st accu_val =
        {| total_accu := Some best;
           scheduler := scheduler_step (scheduler st) |})
  ∨
  ((total_accu st = None ∨
    ∃ best : Q, total_accu st = Some best ∧ (best <= accu_val)%Q) ∧
   epoch_update st accu_val =
     {| total_accu := Some accu_val; scheduler := scheduler st |}).
Proof.
  unfold epoch_update. destruct (total_accu st) as [best|] eqn:Hbest.
  - destruct (Qgtb best accu_val) eqn:Hcmp.
    + left. exists best. by apply Qgtb_true in Hcmp.
    + right. apply Qgtb_false in Hcmp. split; [|done].
      right. by exists best.
  - right. split; [by left|done].
Qed.

(** C7, as stated, fails at a tie.  After a first epoch with validation
    accuracy 9/10 the best seen is 9/10; a second epoch with the same
    accuracy does not improve on it, and yet the scheduler does not step:
    the driver takes the other branch and records 9/10 again. *)
Lemma epoch_update_tie_does_not_step :
  let st := run_epochs driver_init [9 # 10] in
  total_accu st = Some (9 # 10) ∧
  ¬ (9 # 10 < 9 # 10)%Q ∧
  scheduler (epoch_update st (9 # 10)) = scheduler st ∧
  last_epoch (scheduler (epoch_update st (9 # 10))) = 0%nat ∧
  lr (scheduler (epoch_update st (9 # 10))) = LR.
Proof.
  cbn zeta. split; [reflexivity|]. split; [apply Qlt_irrefl|].
  split; [reflexivity|]. split; reflexivity.
Qed.

(** C7, amended.  After the evaluation on the validation split the driver
    does one of two things.  If there is a best accuracy so far and the new
    accuracy is strictly below it, the scheduler steps once (one more epoch
    counted, the learning rate multiplied by [gamma], hence lowered when it
    is positive) and the best stays.  Otherwise, on the first epoch or when
    the new accuracy equals or exceeds the best, the new accuracy is recorded
    as the best and the scheduler is left alone. *)
Theorem epoch_update_steps_or_records (st : driver_state) (accu_val : Q) :
  (∃ best : Q,
      total_accu st = Some best ∧ (accu_val < best)%Q ∧
      epoch_update st accu_val =
        {| total_accu := Some best;
           scheduler := scheduler_step (scheduler st) |} ∧
      last_epoch (scheduler (epoch_update st accu_val))
      = S (last_epoch (scheduler st)) ∧
      lr (scheduler (epoch_update st accu_val))
      = (lr (scheduler st) * gamma)%Q ∧
      ((0 < lr (scheduler st))%Q →
       (lr (scheduler (epoch_update st accu_val)) < lr (scheduler st))%Q))
  ∨
  ((total_accu st = None ∨
    ∃ best : Q, total_accu st = Some best ∧ (best <= accu_val)%Q) ∧
   epoch_update st accu_val =
     {| total_accu := Some accu_val; scheduler := scheduler st |}).
Proof.
  destruct (epoch_update_cases st accu_val)
    as [(best & Hbest & Hlt & Hupd)|[Hcase Hupd]].
  - left. exists best. rewrite Hupd. cbn [scheduler].
    repeat split; try done. apply scheduler_step_decays.
  - right. by split.
Qed.

(** [total_accu] is the best validation accuracy of the epochs run so far. *)
Lemma run_epochs_snoc (st : driver_state) (accu_vals : list Q) (accu_val : Q) :
  run_epochs st (accu_vals ++ [accu_val])
  = epoch_update (run_epochs st accu_vals) accu_val.
Proof. unfold run_epochs. by rewrite foldl_snoc. Qed.

(** X9.  After any run of epochs [total_accu] holds the highest validation
    accuracy met so far: it is one of the accuracies and none is above it. *)
Lemma total_accu_is_best (accu_vals : list Q) :
  accu_vals ≠ [] →
  ∃ best : Q,
    total_accu (run_epochs driver_init accu_vals) = Some best ∧
    In best accu_vals ∧
    Forall (λ a, (a <= best)%Q) accu_vals.
Proof.
  induction accu_vals as [|a accu_vals IH] using rev_ind; [done|].
  intros _. rewrite run_epochs_snoc.
  destruct (epoch_update_cases (run_epochs driver_init accu_vals) a)
    as [(best & Hbest & Hlt & ->)|[Hcase ->]].
  - destruct accu_vals as [|a0 l0]; [done|].
    destruct IH as (b & Hb & Hin & Hall); [done|].
    rewrite Hbest in Hb. injection Hb as ->.
    exists b. split; [done|]. split; [apply in_or_app; by left|].
    apply Forall_app. split; [done|].
    apply Forall_cons. split; [by apply Qlt_le_weak|done].
  - exists a. split; [done|]. split; [apply in_or_app; right; by left|].
    apply Forall_app. split; [|apply Forall_cons; split; [apply Qle_refl|done]].
    destruct Hcase as [Hnone|(best & Hbest & Hle)].
    + destruct accu_vals as [|a0 l0]; [done|].
      destruct IH as (b & Hb & _); [done|]. congruence.
    + destruct accu_vals as [|a0 l0]; [done|].
      destruct IH as (b & Hb & _ & Hall); [done|].
      rewrite Hbest in Hb. injection Hb as ->.
      eapply Forall_impl; [exact Hall|].
      intros x Hx. cbn in Hx. by eapply Qle_trans.
Qed.

(** * Further properties of the notebooks' code *)

(** ** More about [Collator.__call__] *)

Lemma start_of_le_total (self : Collator) (batch : list sample) (i : nat) :
  start_of self batch i ≤ size0 (concat (map (token_ids self) batch)).
Proof.
  unfold start_of, size0. rewrite <- (take_drop i batch) at 2.
  rewrite map_app, concat_app, length_app. lia.
Qed.

Lemma for_each_app {S A} (body : S → A → result S) (xs ys : list A) :
  ∀ st : S,
    for_each body st (xs ++ ys) = for_each body st xs ≫= λ st', for_each body st' ys.
Proof.
  induction xs as [|x xs IH]; intros st; [done|].
  cbn [app for_each]. destruct (body st x) as [st1|e]; [|done].
  cbn. apply IH.
Qed.

(** A turn of the loop succeeds or raises as [encode] does. *)
Lemma loop_body_encode (self : Collator) (st : loop_state) (s : sample) :
  loop_body self st s =
  match encode self s with
  | Ok (l, t) =>
      Ok {| st_labels := st_labels st ++ [l];
            st_texts := st_texts st ++ [t];
            st_offsets := st_offsets st ++ [size0 t] |}
  | Raise e => Raise e
  end.
Proof.
  destruct s as [label text]. unfold loop_body, encode. cbn.
  destruct (label_pipeline self label) as [l|e]; [|done].
  destruct (text_pipeline self text) as [ids|e]; [|done].
  cbn. by destruct (torch_tensor_int64 ids) as [t|e].
Qed.

Lemma for_each_passes (self : Collator) (batch : list sample) :
  ∀ st : loop_state,
    forallb (λ s, is_Ok (encode self s)) batch = true →
    ∃ st', for_each (loop_body self) st batch = Ok st'.
Proof.
  induction batch as [|s batch IH]; intros st Hall; [by eexists|].
  cbn in Hall. apply andb_true_iff in Hall as [Hs Hall].
  cbn [for_each]. rewrite loop_body_encode.
  destruct (encode self s) as [[l t]|e]; [|done]. cbn. by apply IH.
Qed.

(** X1.  The labels that [Collator.__call__] returns are the results of the
    label pipeline on the samples, one per sample and in batch order. *)
Theorem collate_labels_follow_batch (self : Collator) (batch : list sample) :
  batch ≠ [] →
  forallb (encodes self) batch = true →
  ∃ labels texts offsets : list Z,
    Collator_call self batch = Ok (labels, texts, offsets) ∧
    length labels = length batch ∧
    ∀ (i : nat) (s : sample),
      batch !! i = Some s →
      ∃ l : Z, label_pipeline self s.1 = Ok l ∧ labels !! i = Some l.
Proof.
  intros Hne Hall. rewrite (Collator_call_encodes _ _ Hne Hall).
  eexists _, _, _. split; [reflexivity|]. split; [apply length_map|].
  intros i s Hs. exists (label_id self s). split.
  - rewrite forallb_forall in Hall.
    apply encodes_inv, Hall, list_elem_of_In, list_elem_of_lookup. by exists i.
  - by rewrite lookup_map, Hs.
Qed.

Lemma collate_labels_follow_batch_witness :
  ∃ labels texts offsets : list Z,
    Collator_call (AGNews.collator demo_vocab whitespace_tokenizer)
      [(PyInt 3, "great film"%string); (PyStr "1", "bad"%string)]
    = Ok (labels, texts, offsets) ∧
    length labels = 2%nat ∧
    ∀ (i : nat) (s : sample),
      [(PyInt 3, "great film"%string); (PyStr "1", "bad"%string)] !! i = Some s →
      ∃ l : Z,
        label_pipeline (AGNews.collator demo_vocab whitespace_tokenizer) s.1
        = Ok l ∧ labels !! i = Some l.
Proof.
  apply (collate_labels_follow_batch
           (AGNews.collator demo_vocab whitespace_tokenizer)).
  - discriminate.
  - vm_compute. reflexivity.
Defined.

(** X2.  The first offset is 0 and every offset is a position of the flat
    [texts], between 0 and its length: what an embedding bag asks of its
    offsets. *)
Theorem collate_offsets_within_texts (self : Collator) (batch : list sample) :
  batch ≠ [] →
  forallb (encodes self) batch = true →
  ∃ labels texts offsets : list Z,
    Collator_call self batch = Ok (labels, texts, offsets) ∧
    offsets !! 0%nat = Some 0 ∧
    Forall (λ off, 0 ≤ off ≤ size0 texts) offsets.
Proof.
  intros Hne Hall. rewrite (Collator_call_encodes _ _ Hne Hall).
  eexists _, _, _. split; [reflexivity|]. split.
  - rewrite start_of_lookup by (destruct batch; [done|cbn; lia]). done.
  - apply Forall_lookup. intros i off Hoff.
    apply offsets_lookup_inv in Hoff as [_ ->].
    split; [apply start_of_nonneg|apply start_of_le_total].
Qed.

Lemma collate_offsets_within_texts_witness :
  ∃ labels texts offsets : list Z,
    Collator_call (IMDB.collator demo_vocab spacy_like_tokenizer)
      [(PyStr "pos", "a great film"%string); (PyStr "neg", ""%string);
       (PyStr "neg", "bad"%string)]
    = Ok (labels, texts, offsets) ∧
    offsets !! 0%nat = Some 0 ∧
    Forall (λ off, 0 ≤ off ≤ size0 texts) offsets.
Proof.
  apply (collate_offsets_within_texts
           (IMDB.collator demo_vocab spacy_like_tokenizer)).
  - discriminate.
  - vm_compute. reflexivity.
Defined.

(** X3.  An exception in the loop ends the call at once: if the samples
    before some sample go through the loop and that sample raises [e] (in a
    pipeline, or because an id does not fit), the call raises [e], whatever
    comes after it in the batch. *)
Theorem collate_first_failure_propagates
    (self : Collator) (before after : list sample) (s : sample) (e : exn) :
  forallb (λ s', is_Ok (encode self s')) before = true →
  encode self s = Raise e →
  Collator_call self (before ++ s :: after) = Raise e.
Proof.
  intros Hbefore Hs. unfold Collator_call. rewrite for_each_app.
  destruct (for_each_passes self before loop_init Hbefore) as [st' ->].
  cbn [mbind result_bind for_each]. rewrite loop_body_encode, Hs. done.
Qed.

Lemma collate_first_failure_propagates_witness :
  Collator_call (AGNews.collator demo_vocab whitespace_tokenizer)
    ([(PyInt 3, "great film"%string)] ++
     (PyStr "Sports", "bad"%string) :: [(PyNone, "film"%string)])
  = Raise ValueError.
Proof.
  apply (collate_first_failure_propagates
           (AGNews.collator demo_vocab whitespace_tokenizer)).
  - vm_compute. reflexivity.
  - vm_compute. reflexivity.
Defined.

Lemma forallb_false_elem {A} (f : A → bool) (xs : list A) :
  forallb f xs = false → ∃ x : A, x ∈ xs ∧ f x = false.
Proof.
  induction xs as [|x xs IH]; [done|]. cbn.
  destruct (f x) eqn:Hx.
  - intros Hxs. destruct (IH Hxs) as (y & Hy & Hfy).
    exists y. split; [by apply list_elem_of_further|done].
  - intros _. exists x. split; [apply list_elem_of_here|done].
Qed.

(** X4.  [Collator.__call__] raises exactly on the empty batch and on a
    batch with a sample that does not encode; on every other batch it
    returns. *)
Theorem collate_raises_exactly_when (self : Collator) (batch : list sample) :
  (∃ e : exn, Collator_call self batch = Raise e) ↔
  batch = [] ∨ ∃ s : sample, s ∈ batch ∧ encodes self s = false.
Proof.
  pose proof (Collator_call_returns_iff self batch) as Hiff.
  split.
  - intros [e He].
    destruct batch as [|s0 batch0] eqn:Hbatch; [by left|]. right.
    destruct (forallb (encodes self) (s0 :: batch0)) eqn:Hall.
    + destruct (proj2 Hiff) as [r Hr]; [done|]. congruence.
    + by apply forallb_false_elem.
  - intros Hbad.
    destruct (Collator_call self batch) as [r|e] eqn:Hcall; [|by exists e].
    destruct (proj1 Hiff) as [Hne Hall]; [by exists r|].
    destruct Hbad as [->|(s & Hin & Hs)]; [done|].
    rewrite forallb_forall in Hall.
    rewrite (Hall s) in Hs; [done|by apply list_elem_of_In].
Qed.

Lemma sumZ_app (xs ys : list Z) : sumZ (xs ++ ys) = sumZ xs + sumZ ys.
Proof.
  unfold sumZ. induction xs as [|x xs IH]; [done|]. cbn. rewrite IH. lia.
Qed.

(** The offsets of two runs of lengths, one after the other: those of the
    second run are moved by the total of the first. *)
Lemma offsets_app (lens1 lens2 : list Z) :
  cumsum (py_drop_last (0 :: lens1 ++ lens2)) =
  cumsum (py_drop_last (0 :: lens1)) ++
  map (Z.add (sumZ lens1)) (cumsum (py_drop_last (0 :: lens2))).
Proof.
  apply list_eq. intros i.
  destruct (decide (i < length lens1)%nat) as [Hi|Hi].
  - rewrite lookup_app_l by (by rewrite offsets_length).
    rewrite !offsets_lookup by (rewrite ?length_app; lia).
    by rewrite take_app_le by lia.
  - rewrite lookup_app_r by (rewrite offsets_length; lia).
    rewrite offsets_length, lookup_map.
    destruct (decide (i - length lens1 < length lens2)%nat) as [Hj|Hj].
    + rewrite !offsets_lookup by (rewrite ?length_app; lia). cbn.
      by rewrite take_app_ge, sumZ_app by lia.
    + rewrite !lookup_ge_None_2;
        [done|rewrite offsets_length; lia|rewrite offsets_length, length_app; lia].
Qed.

(** X5.  Collating two batches one after the other is collating them
    apart and joining the results: the labels and the flat texts are
    appended, and the offsets of the second batch are moved by the length of
    the texts of the first. *)
Theorem collate_app (self : Collator) (batch1 batch2 : list sample) :
  batch1 ≠ [] →
  batch2 ≠ [] →
  forallb (encodes self) batch1 = true →
  forallb (encodes self) batch2 = true →
  ∃ labels1 texts1 offsets1 labels2 texts2 offsets2 : list Z,
    Collator_call self batch1 = Ok (labels1, texts1, offsets1) ∧
    Collator_call self batch2 = Ok (labels2, texts2, offsets2) ∧
    Collator_call self (batch1 ++ batch2) =
      Ok (labels1 ++ labels2, texts1 ++ texts2,
          offsets1 ++ map (Z.add (size0 texts1)) offsets2).
Proof.
  intros Hne1 Hne2 Hall1 Hall2.
  rewrite (Collator_call_encodes _ _ Hne1 Hall1).
  rewrite (Collator_call_encodes _ _ Hne2 Hall2).
  rewrite Collator_call_encodes;
    [|by destruct batch1|by rewrite forallb_app, Hall1, Hall2].
  eexists _, _, _, _, _, _. split; [reflexivity|]. split; [reflexivity|].
  rewrite !map_app, concat_app, offsets_app, sumZ_sizes. done.
Qed.

Lemma collate_app_witness :
  ∃ labels1 texts1 offsets1 labels2 texts2 offsets2 : list Z,
    Collator_call (IMDB.collator demo_vocab spacy_like_tokenizer)
      [(PyStr "pos", "a great film"%string); (PyStr "neg", "bad"%string)]
    = Ok (labels1, texts1, offsets1) ∧
    Collator_call (IMDB.collator demo_vocab spacy_like_tokenizer)
      [(PyStr "neg", "bad film"%string)]
    = Ok (labels2, texts2, offsets2) ∧
    Collator_call (IMDB.collator demo_vocab spacy_like_tokenizer)
      ([(PyStr "pos", "a great film"%string); (PyStr "neg", "bad"%string)] ++
       [(PyStr "neg", "bad film"%string)])
    = Ok (labels1 ++ labels2, texts1 ++ texts2,
          offsets1 ++ map (Z.add (size0 texts1)) offsets2).
Proof.
  apply (collate_app (IMDB.collator demo_vocab spacy_like_tokenizer)).
  - discriminate.
  - discriminate.
  - vm_compute. reflexivity.
  - vm_compute. reflexivity.
Defined.

(** X6.  The sentiment collator returns on every batch that is not empty,
    whatever the labels and the texts are, and its labels are 0 where the
    sample is labelled ["neg"] and 1 elsewhere. *)
Theorem sentiment_collator_always_returns
    (v : Vocab) (tok : string → list IMDB.Token) (batch : list sample) :
  batch ≠ [] →
  ∃ labels texts offsets : list Z,
    Collator_call (IMDB.collator v tok) batch = Ok (labels, texts, offsets) ∧
    labels = map (λ s, if decide (s.1 = PyStr "neg") then 0 else 1) batch ∧
    Forall (λ l, l = 0 ∨ l = 1) labels.
Proof.
  intros Hne.
  rewrite (Collator_call_encodes _ _ Hne (IMDB_collator_encodes_all v tok batch)).
  eexists _, _, _. split; [reflexivity|].
  assert (∀ s : sample,
            label_id (IMDB.collator v tok) s
            = if decide (s.1 = PyStr "neg") then 0 else 1) as Hlabel.
  { intros s. rewrite IMDB_label_id. unfold IMDB.LabelPipeline_call, py_eq.
    by destruct (decide (s.1 = PyStr "neg"));
      [rewrite bool_decide_eq_true_2|rewrite bool_decide_eq_false_2]. }
  split.
  - apply map_ext. intros s. apply Hlabel.
  - apply Forall_forall. intros l Hl.
    apply list_elem_of_In, in_map_iff in Hl as (s & <- & _).
    rewrite Hlabel. destruct (decide (s.1 = PyStr "neg")); [by left|by right].
Qed.

Lemma sentiment_collator_always_returns_witness :
  ∃ labels texts offsets : list Z,
    Collator_call (IMDB.collator demo_vocab spacy_like_tokenizer)
      [(PyNone, ""%string); (PyStr "neg", "bad film"%string)]
    = Ok (labels, texts, offsets) ∧
    labels = map (λ s, if decide (s.1 = PyStr "neg") then 0 else 1)
               [(PyNone, ""%string); (PyStr "neg", "bad film"%string)] ∧
    Forall (λ l, l = 0 ∨ l = 1) labels.
Proof.
  apply (sentiment_collator_always_returns demo_vocab spacy_like_tokenizer).
  discriminate.
Defined.

(** X7.  The topic collator on a batch whose labels all read as integers
    between 1 and [num_classes]: it returns, and every label it returns is a
    class id from 0 up to and excluding [num_classes]. *)
Theorem topic_collator_labels_in_range
    (v : Vocab) (tok : string → list string) (batch : list sample)
    (num_classes : Z) :
  batch ≠ [] →
  num_classes ≤ 2 ^ 63 →
  Forall (λ s : sample, ∃ n : Z, py_int s.1 = Ok n ∧ 1 ≤ n ≤ num_classes) batch →
  ∃ labels texts offsets : list Z,
    Collator_call (AGNews.collator v tok) batch = Ok (labels, texts, offsets) ∧
    Forall (λ l, 0 ≤ l < num_classes) labels.
Proof.
  intros Hne Hbig Hlabels.
  assert (forallb (encodes (AGNews.collator v tok)) batch = true) as Hall.
  { apply forallb_forall. intros s Hs.
    rewrite Forall_forall in Hlabels.
    destruct (Hlabels s (proj2 (list_elem_of_In _ _) Hs)) as (n & Hn & Hrange).
    apply AGNews_collator_encodes. exists n. split; [done|].
    apply in_int64_spec. lia. }
  rewrite (Collator_call_encodes _ _ Hne Hall).
  eexists _, _, _. split; [reflexivity|].
  apply Forall_forall. intros l Hl.
  apply list_elem_of_In, in_map_iff in Hl as (s & <- & Hs).
  rewrite Forall_forall in Hlabels.
  destruct (Hlabels s (proj2 (list_elem_of_In _ _) Hs)) as (n & Hn & Hrange).
  unfold label_id. cbn. unfold AGNews.LabelPipeline_call.
  rewrite Hn. cbn. lia.
Qed.

Lemma topic_collator_labels_in_range_witness :
  ∃ labels texts offsets : list Z,
    Collator_call (AGNews.collator demo_vocab whitespace_tokenizer)
      [(PyInt 3, "great film"%string); (PyStr "1", "bad"%string)]
    = Ok (labels, texts, offsets) ∧
    Forall (λ l, 0 ≤ l < 4) labels.
Proof.
  apply (topic_collator_labels_in_range demo_vocab whitespace_tokenizer).
  - discriminate.
  - lia.
  - repeat constructor.
    + exists 3. split; [reflexivity|lia].
    + exists 1. split; [reflexivity|lia].
Defined.

(** ** [forward] on a collated batch *)

Lemma cumsum_from_starts (lens : list Z) :
  ∀ acc first : Z,
    cumsum_from acc (py_drop_last (first :: lens)) = starts (acc + first) lens.
Proof.
  induction lens as [|len lens IH]; intros acc first; [done|].
  rewrite py_drop_last_cons. cbn [length]. rewrite firstn_cons.
  rewrite <- py_drop_last_cons. cbn [cumsum_from starts]. by rewrite IH.
Qed.

Lemma offsets_starts (lens : list Z) :
  cumsum (py_drop_last (0 :: lens)) = starts 0 lens.
Proof. unfold cumsum. by rewrite cumsum_from_starts. Qed.

Lemma mapM_Ok_map {A B} (f : A → result B) (g : A → B) (xs : list A) :
  Forall (λ x, f x = Ok (g x)) xs → mapM f xs = Ok (map g xs).
Proof.
  induction 1 as [|x xs Hx _ IH]; [done|].
  cbn [mapM map]. rewrite Hx. cbn. rewrite IH. done.
Qed.

Section ForwardFacts.
Context {F : Type} `{Num F}.

Lemma starts_snoc (lens : list Z) :
  ∀ acc : Z,
    starts acc lens ++ [acc + sumZ lens] = acc :: map snd (spans acc lens).
Proof.
  induction lens as [|len lens IH]; intros acc.
  - cbn. by rewrite Z.add_0_r.
  - cbn [starts spans map snd app sumZ foldr]. fold (sumZ lens).
    by rewrite Z.add_assoc, IH.
Qed.

Lemma zip_starts_ends (lens : list Z) :
  ∀ acc : Z, zip (starts acc lens) (map snd (spans acc lens)) = spans acc lens.
Proof.
  induction lens as [|len lens IH]; intros acc; [done|].
  cbn [starts spans map snd zip_with]. by rewrite IH.
Qed.

Lemma bag_bounds_spans (lens : list Z) (acc : Z) :
  bag_bounds (starts acc lens) (acc + sumZ lens) = spans acc lens.
Proof.
  unfold bag_bounds. destruct lens as [|len lens]; [done|].
  rewrite <- zip_starts_ends.
  change (drop 1 (starts acc (len :: lens))) with (starts (acc + len) lens).
  cbn [spans map snd sumZ foldr]. fold (sumZ lens).
  by rewrite Z.add_assoc, starts_snoc.
Qed.

Lemma embed_ids (e : EmbeddingBag F) (ids : list Z) :
  Forall (λ id, 0 ≤ id < Z.of_nat (num_embeddings e)) ids →
  mapM (embed e) ids = Ok (map (λ id, weight_row e (Z.to_nat id)) ids).
Proof.
  intros Hids. apply mapM_Ok_map.
  eapply Forall_impl; [exact Hids|]. intros id [Hlo Hhi]. unfold embed.
  apply Z.leb_le in Hlo. apply Z.ltb_lt in Hhi. by rewrite Hlo, Hhi.
Qed.

Lemma bags_of_buffer (e : EmbeddingBag F) (idss : list (list Z)) :
  ∀ before : list Z,
    Forall (Forall (λ id, 0 ≤ id < Z.of_nat (num_embeddings e))) idss →
    mapM (λ '(start, stop),
            rows ← mapM (embed e) (py_slice (before ++ concat idss) start stop);
            mret (bag_mean (embedding_dim e) rows))
         (spans (size0 before) (map size0 idss))
    = Ok (map (sample_vector e) idss).
Proof.
  induction idss as [|ids idss IH]; intros before Hids; [done|].
  apply Forall_cons in Hids as [Hhead Htail].
  cbn [map spans mapM concat].
  assert (py_slice (before ++ ids ++ concat idss)
            (size0 before) (size0 before + size0 ids) = ids) as ->.
  { unfold py_slice, size0. rewrite Z2Nat.inj_add, !Nat2Z.id by lia.
    rewrite drop_app_length.
    replace (_ + _ - _)%nat with (length ids) by lia.
    by rewrite take_app_length. }
  rewrite (embed_ids _ _ Hhead). cbn.
  replace (size0 before + size0 ids) with (size0 (before ++ ids))
    by (unfold size0; rewrite length_app; lia).
  rewrite app_assoc, (IH _ Htail). done.
Qed.

Lemma vsum_length (dim : nat) (rows : list (list F)) :
  Forall (λ row, length row = dim) rows → length (vsum dim rows) = dim.
Proof.
  unfold vsum. generalize (replicate dim fzero), (length_replicate dim fzero).
  induction rows as [|row rows IH]; intros acc Hacc Hrows; [done|].
  apply Forall_cons in Hrows as [Hrow Hrows]. cbn [foldl].
  apply IH; [|done]. unfold vadd. rewrite length_zip_with. lia.
Qed.

Lemma sample_vector_length (e : EmbeddingBag F) (ids : list Z) :
  length (sample_vector e ids) = embedding_dim e.
Proof.
  unfold sample_vector, bag_mean.
  destruct (map _ ids) as [|row rows] eqn:Hrows; [apply length_replicate|].
  rewrite length_map. apply vsum_length. rewrite <- Hrows.
  apply Forall_forall. intros r Hr.
  apply list_elem_of_In, in_map_iff in Hr as (id & <- & _).
  unfold weight_row. by rewrite length_map, length_seq.
Qed.

(** X8.  [forward] on what the collator returns, when every token id is a
    row of the embedding table: the embedding bag gives one vector per
    sample, in batch order, each of width [embedding_dim] however many tokens
    the sample has (none included); the vector of a sample is the mean of
    the rows of its own token ids and of no other sample's; and [forward]
    returns the feed-forward stack applied to each of these vectors. *)
Theorem forward_after_collate
    (self : Collator) (model : TextClassificationModel F)
    (batch : list sample) :
  batch ≠ [] →
  forallb (encodes self) batch = true →
  Forall (λ s, Forall (λ id, 0 ≤ id
                             < Z.of_nat (num_embeddings (embedding model)))
                 (token_ids self s)) batch →
  ∃ (labels texts offsets : list Z) (embedded : list (list F)),
    Collator_call self batch = Ok (labels, texts, offsets) ∧
    EmbeddingBag_call (embedding model) texts offsets = Ok embedded ∧
    embedded
    = map (λ s, sample_vector (embedding model) (token_ids self s)) batch ∧
    Forall (λ row, length row = embedding_dim (embedding model)) embedded ∧
    forward model texts offsets = Ok (map (fc model) embedded).
Proof.
  intros Hne Hall Hids. rewrite (Collator_call_encodes _ _ Hne Hall).
  eexists _, _, _, _. split; [reflexivity|].
  assert (EmbeddingBag_call (embedding model)
            (concat (map (token_ids self) batch))
            (cumsum (py_drop_last
                       (0 :: map (λ s, size0 (token_ids self s)) batch)))
          = Ok (map (λ s, sample_vector (embedding model) (token_ids self s))
                  batch)) as Hbag.
  { unfold EmbeddingBag_call. rewrite offsets_starts.
    rewrite <- sumZ_sizes, <- (Z.add_0_l (sumZ _)), bag_bounds_spans.
    pose proof (bags_of_buffer (embedding model)
                  (map (token_ids self) batch) []) as Hbags.
    rewrite !map_map in Hbags. cbn [app] in Hbags.
    change (size0 []) with 0 in Hbags. apply Hbags.
    apply Forall_forall. intros ids Hin.
    apply list_elem_of_In, in_map_iff in Hin as (s & <- & Hs).
    rewrite Forall_forall in Hids. by apply Hids, list_elem_of_In. }
  split; [exact Hbag|]. split; [reflexivity|]. split.
  - apply Forall_forall. intros row Hrow.
    apply list_elem_of_In, in_map_iff in Hrow as (s & <- & _).
    apply sample_vector_length.
  - unfold forward. rewrite Hbag. done.
Qed.

End ForwardFacts.

Lemma forward_after_collate_witness :
  let table : EmbeddingBag Qc :=
    {| num_embeddings := 5; embedding_dim := 2;
       weight := λ i j, Q2Qc (inject_Z (Z.of_nat (i + j))) |} in
  let model : TextClassificationModel Qc :=
    {| embedding := table; fc := λ row, row |} in
  let self := IMDB.collator demo_vocab spacy_like_tokenizer in
  let batch :=
    [(PyStr "pos", "a great film"%string); (PyStr "neg", ""%string);
     (PyStr "neg", "bad"%string)] in
  ∃ (labels texts offsets : list Z) (embedded : list (list Qc)),
    Collator_call self batch = Ok (labels, texts, offsets) ∧
    EmbeddingBag_call table texts offsets = Ok embedded ∧
    embedded = map (λ s, sample_vector table (token_ids self s)) batch ∧
    Forall (λ row, length row = 2%nat) embedded ∧
    forward model texts offsets = Ok (map (λ row, row) embedded).
Proof.
  intros table model self batch.
  apply (forward_after_collate self model batch).
  - discriminate.
  - vm_compute. reflexivity.
  - apply (bool_decide_unpack _). vm_compute. exact I.
Defined.

(** ** More about the epoch driver *)

Lemma total_accu_is_best_witness :
  ∃ best : Q,
    total_accu (run_epochs driver_init [83 # 100; 87 # 100; 86 # 100])
    = Some best ∧
    In best [83 # 100; 87 # 100; 86 # 100] ∧
    Forall (λ a, (a <= best)%Q) [83 # 100; 87 # 100; 86 # 100].
Proof. apply (total_accu_is_best [83 # 100; 87 # 100; 86 # 100]). discriminate. Defined.

(** X10.  The first epoch never decays the learning rate, so a run of [n]
    epochs makes fewer than [n] scheduler steps; and the learning rate at the
    end is the initial rate [LR] multiplied by [gamma] once per step
    made. *)
Theorem run_epochs_decays (accu_vals : list Q) :
  accu_vals ≠ [] →
  let st := run_epochs driver_init accu_vals in
  (last_epoch (scheduler st) < length accu_vals)%nat ∧
  lr (scheduler st) = decayed (last_epoch (scheduler st)).
Proof.
  intros Hne. cbn zeta.
  induction accu_vals as [|a accu_vals IH] using rev_ind; [done|]. clear Hne.
  rewrite run_epochs_snoc, length_app. cbn [length].
  destruct accu_vals as [|a0 accu_vals0] eqn:Haccs;
    [split; [cbn; lia|reflexivity]|].
  rewrite <- Haccs in *.
  destruct IH as [Hsteps Hlr]; [by rewrite Haccs|].
  destruct (epoch_update_cases (run_epochs driver_init accu_vals) a)
    as [(best & _ & _ & ->)|[_ ->]]; cbn [scheduler scheduler_step last_epoch lr].
  - split; [lia|]. by rewrite Hlr.
  - split; [lia|done].
Qed.

Lemma run_epochs_decays_witness :
  let st := run_epochs driver_init [83 # 100; 87 # 100; 86 # 100; 85 # 100] in
  (last_epoch (scheduler st) < 4)%nat ∧
  lr (scheduler st) = decayed (last_epoch (scheduler st)).
Proof.
  apply (run_epochs_decays [83 # 100; 87 # 100; 86 # 100; 85 # 100]).
  discriminate.
Defined.

Lemma Qnon_decreasing_snoc (xs : list Q) (a : Q) :
  Qnon_decreasing (xs ++ [a]) ↔
  Qnon_decreasing xs ∧ ∀ b : Q, last xs = Some b → (b <= a)%Q.
Proof.
  unfold Qnon_decreasing. split.
  - intros Hnd. split.
    + intros i x y Hx Hy. apply (Hnd i).
      * rewrite lookup_app_l; [done|by eapply lookup_lt_Some].
      * rewrite lookup_app_l; [done|by eapply lookup_lt_Some].
    + intros b Hb. rewrite last_lookup_pred in Hb.
      pose proof (lookup_lt_Some _ _ _ Hb) as Hlt.
      apply (Hnd (length xs - 1)%nat).
      * by rewrite lookup_app_l by lia.
      * rewrite lookup_app_r by lia.
        by replace (S (length xs - 1) - length xs)%nat with 0%nat by lia.
  - intros [Hnd Hlast] i x y Hx Hy.
    destruct (decide (S i < length xs)%nat) as [Hi|Hi].
    + rewrite lookup_app_l in Hx by lia. rewrite lookup_app_l in Hy by lia.
      by apply (Hnd i).
    + pose proof (lookup_lt_Some _ _ _ Hy) as Hlt.
      rewrite length_app in Hlt. cbn in Hlt.
      assert (S i = length xs) as HSi by lia.
      rewrite lookup_app_l in Hx by lia.
      rewrite lookup_app_r in Hy by lia.
      replace (S i - length xs)%nat with 0%nat in Hy by lia.
      injection Hy as <-. apply Hlast. rewrite last_lookup_pred.
      by replace (length xs - 1)%nat with i by lia.
Qed.

(** X11.  The scheduler is left alone through a whole run exactly when the
    validation accuracy never falls from one epoch to the next; equal or
    rising accuracies keep the learning rate, any fall loses it. *)
Theorem run_epochs_no_decay_iff (accu_vals : list Q) :
  last_epoch (scheduler (run_epochs driver_init accu_vals)) = 0%nat ↔
  Qnon_decreasing accu_vals.
Proof.
  assert ((last_epoch (scheduler (run_epochs driver_init accu_vals)) = 0%nat ↔
           Qnon_decreasing accu_vals) ∧
          (last_epoch (scheduler (run_epochs driver_init accu_vals)) = 0%nat →
           total_accu (run_epochs driver_init accu_vals) = last accu_vals))
    as [Hiff _]; [|exact Hiff].
  induction accu_vals as [|a accu_vals [IHiff IHlast]] using rev_ind.
  - split; [|done]. split; [|done]. intros _ i x y Hx. done.
  - rewrite run_epochs_snoc, Qnon_decreasing_snoc, last_snoc.
    destruct (epoch_update_cases (run_epochs driver_init accu_vals) a)
      as [(best & Hbest & Hlt & ->)|[Hcase ->]];
      cbn [scheduler scheduler_step last_epoch total_accu].
    + split; [|done]. split; [done|]. intros [Hnd Hlast].
      apply IHiff in Hnd. specialize (IHlast Hnd).
      rewrite Hbest in IHlast. symmetry in IHlast.
      apply Hlast in IHlast. by apply Qle_not_lt in IHlast.
    + split; [|done]. rewrite IHiff. split.
      * intros Hnd. split; [done|]. intros b Hb.
        rewrite <- IHlast in Hb by (by apply IHiff).
        destruct Hcase as [Hnone|(best & Hbest & Hle)]; [congruence|].
        rewrite Hbest in Hb. by injection Hb as <-.
      * by intros [Hnd _].
Qed.

(** ** The data loader in front of the collator *)

Lemma batch_sampler_concat {A} (batch_size : nat) (xs : list A) :
  ∀ batch : list A, concat (batch_sampler batch_size batch xs) = batch ++ xs.
Proof.
  induction xs as [|x xs IH]; intros batch.
  - cbn. destruct batch; [done|]. cbn. by rewrite !app_nil_r.
  - cbn [batch_sampler].
    destruct (length (batch ++ [x]) =? batch_size)%nat.
    + cbn. rewrite IH. cbn. by rewrite <- app_assoc.
    + rewrite IH. by rewrite <- app_assoc.
Qed.

Lemma batch_sampler_nonempty {A} (batch_size : nat) (xs : list A) :
  ∀ batch : list A, Forall (λ b, b ≠ []) (batch_sampler batch_size batch xs).
Proof.
  induction xs as [|x xs IH]; intros batch.
  - cbn. destruct batch; [done|]. by constructor.
  - cbn [batch_sampler].
    destruct (length (batch ++ [x]) =? batch_size)%nat; [|apply IH].
    constructor; [by destruct batch|apply IH].
Qed.

Lemma batch_sampler_sizes {A} (batch_size : nat) (xs : list A) :
  ∀ batch : list A,
    (length batch < batch_size)%nat →
    Forall (λ b, (length b ≤ batch_size)%nat) (batch_sampler batch_size batch xs).
Proof.
  induction xs as [|x xs IH]; intros batch Hlt.
  - cbn. destruct batch; [done|]. constructor; [lia|done].
  - cbn [batch_sampler].
    destruct (length (batch ++ [x]) =? batch_size)%nat eqn:Hfull.
    + apply Nat.eqb_eq in Hfull. constructor; [lia|]. apply IH. cbn. lia.
    + apply Nat.eqb_neq in Hfull. apply IH.
      rewrite length_app in Hfull |- *. cbn in Hfull |- *. lia.
Qed.

Lemma batch_sampler_count {A} (batch_size : nat) (xs : list A) :
  ∀ batch : list A,
    (length batch < batch_size)%nat →
    length (batch_sampler batch_size batch xs)
    = Nat.div (length batch + length xs + batch_size - 1) batch_size.
Proof.
  induction xs as [|x xs IH]; intros batch Hlt.
  - cbn [batch_sampler length]. rewrite Nat.add_0_r.
    destruct batch as [|y batch].
    + cbn [length]. symmetry. apply Nat.div_small. lia.
    + cbn [length] in Hlt |- *. apply (Nat.div_unique _ _ 1 (length batch)); lia.
  - cbn [batch_sampler].
    destruct (length (batch ++ [x]) =? batch_size)%nat eqn:Hfull.
    + apply Nat.eqb_eq in Hfull. rewrite length_app in Hfull. cbn in Hfull.
      cbn [length]. rewrite IH by (cbn; lia). cbn [length].
      replace (length batch + S (length xs) + batch_size - 1)%nat
        with (0 + length xs + batch_size - 1 + 1 * batch_size)%nat by lia.
      rewrite Nat.div_add by lia. lia.
    + apply Nat.eqb_neq in Hfull. rewrite length_app in Hfull. cbn in Hfull.
      rewrite IH by (rewrite length_app; cbn; lia).
      rewrite length_app. cbn [length]. f_equal. lia.
Qed.

Lemma collate_batches (self : Collator) (bs : list (list sample)) :
  Forall (λ b, b ≠ []) bs →
  forallb (encodes self) (concat bs) = true →
  ∃ encoded : list encoded_batch,
    map (Collator_call self) bs = map Ok encoded ∧
    length encoded = length bs ∧
    concat (map (λ b : encoded_batch, b.1.1) encoded)
    = map (label_id self) (concat bs) ∧
    concat (map (λ b : encoded_batch, b.1.2) encoded)
    = concat (map (token_ids self) (concat bs)).
Proof.
  induction bs as [|b bs IH]; intros Hnonempty Hall; [by exists []|].
  apply Forall_cons in Hnonempty as [Hb Hbs].
  cbn [concat] in Hall. rewrite forallb_app in Hall.
  apply andb_true_iff in Hall as [Hallb Hallbs].
  destruct (IH Hbs Hallbs) as (encoded & Henc & Hlen & Hlabels & Htexts).
  eexists (_ :: encoded). cbn [map concat length].
  rewrite (Collator_call_encodes _ _ Hb Hallb), Henc, Hlen.
  split; [reflexivity|]. split; [done|]. cbn [fst snd].
  by rewrite Hlabels, Htexts, !map_app, concat_app.
Qed.

(** X12.  A loader without shuffling over a data set whose samples all
    encode, with a positive batch size: every step of the iteration returns
    an encoded batch (the collator is never handed an empty batch), there are
    as many batches as the size of the data set divided by the batch size,
    rounded up, and the labels and the flat texts of the batches, put end to
    end, are the labels and the token ids of the whole data set in order. *)
Theorem DataLoader_collates_whole_dataset
    (self : Collator) (dataset : list sample) (batch_size : nat) :
  (0 < batch_size)%nat →
  forallb (encodes self) dataset = true →
  ∃ encoded : list encoded_batch,
    DataLoader_iter dataset batch_size (Collator_call self) = map Ok encoded ∧
    length encoded = Nat.div (length dataset + batch_size - 1) batch_size ∧
    concat (map (λ b : encoded_batch, b.1.1) encoded)
    = map (label_id self) dataset ∧
    concat (map (λ b : encoded_batch, b.1.2) encoded)
    = concat (map (token_ids self) dataset).
Proof.
  intros Hpos Hall. unfold DataLoader_iter, batches.
  pose proof (batch_sampler_concat batch_size dataset []) as Hconcat.
  pose proof (batch_sampler_count batch_size dataset [] Hpos) as Hcount.
  cbn [app length Nat.add] in Hconcat, Hcount.
  destruct (collate_batches self (batch_sampler batch_size [] dataset))
    as (encoded & Henc & Hlen & Hlabels & Htexts).
  - apply batch_sampler_nonempty.
  - by rewrite Hconcat.
  - exists encoded. rewrite Hconcat in Hlabels, Htexts.
    split; [exact Henc|]. split; [by rewrite Hlen, Hcount|done].
Qed.

Lemma DataLoader_collates_whole_dataset_witness :
  let self := IMDB.collator demo_vocab spacy_like_tokenizer in
  let dataset :=
    [(PyStr "pos", "a great film"%string); (PyStr "neg", ""%string);
     (PyStr "neg", "bad"%string); (PyStr "neg", "bad film"%string);
     (PyStr "pos", "great"%string)] in
  ∃ encoded : list encoded_batch,
    DataLoader_iter dataset 2 (Collator_call self) = map Ok encoded ∧
    length encoded = Nat.div (length dataset + 2 - 1) 2 ∧
    concat (map (λ b : encoded_batch, b.1.1) encoded)
    = map (label_id self) dataset ∧
    concat (map (λ b : encoded_batch, b.1.2) encoded)
    = concat (map (token_ids self) dataset).
Proof.
  intros self dataset.
  apply (DataLoader_collates_whole_dataset self dataset 2).
  - lia.
  - vm_compute. reflexivity.
Defined.

(** ** The counter of tokens *)

Lemma Counter_update_lookup (tokens : list string) :
  ∀ (counter : gmap string nat) (token : string),
    Counter_update counter tokens !!! token
    = (counter !!! token + count_occ string_dec tokens token)%nat.
Proof.
  unfold Counter_update.
  induction tokens as [|t tokens IH]; intros counter token; [cbn; lia|].
  cbn [foldl]. rewrite IH.
  destruct (decide (t = token)) as [->|Hne].
  - rewrite lookup_total_insert_eq, count_occ_cons_eq by done. lia.
  - by rewrite lookup_total_insert_ne, count_occ_cons_neq by done.
Qed.

Lemma Counter_update_positive (tokens : list string) :
  ∀ counter : gmap string nat,
    (∀ (token : string) (n : nat), counter !! token = Some n → (0 < n)%nat) →
    ∀ (token : string) (n : nat),
      Counter_update counter tokens !! token = Some n → (0 < n)%nat.
Proof.
  unfold Counter_update.
  induction tokens as [|t tokens IH]; intros counter Hpos; [done|].
  cbn [foldl]. apply IH. intros token n.
  destruct (decide (t = token)) as [->|Hne].
  - rewrite lookup_insert_eq. intros [= <-]. lia.
  - rewrite lookup_insert_ne by done. apply Hpos.
Qed.

(** X13.  After the counting loop the counter holds, for every token, the
    number of times the tokenizer produced it over the whole corpus, and it
    has an entry for a token exactly when the token occurs at least once. *)
Theorem count_tokens_counts
    (tokenizer : string → list string) (train_iter : list sample)
    (token : string) :
  let occurrences :=
    count_occ string_dec (concat (map (λ s, tokenizer s.2) train_iter)) token in
  count_tokens tokenizer train_iter !!! token = occurrences ∧
  (count_tokens tokenizer train_iter !! token = None ↔ occurrences = 0%nat).
Proof.
  cbn zeta. unfold count_tokens.
  assert (∀ (corpus : list sample) (counter : gmap string nat),
            (∀ t n, counter !! t = Some n → (0 < n)%nat) →
            let final :=
              foldl (λ c s, Counter_update c (tokenizer s.2)) counter corpus in
            final !!! token
            = (counter !!! token +
               count_occ string_dec (concat (map (λ s, tokenizer s.2) corpus))
                 token)%nat ∧
            (∀ t n, final !! t = Some n → (0 < n)%nat)) as Hloop.
  { induction corpus as [|s corpus IH]; intros counter Hpos; cbn zeta.
    - cbn. split; [lia|done].
    - cbn [foldl map concat].
      destruct (IH (Counter_update counter (tokenizer s.2))
                  (Counter_update_positive _ _ Hpos)) as [Hcount Hfinal].
      split; [|exact Hfinal].
      rewrite Hcount, Counter_update_lookup, count_occ_app. lia. }
  destruct (Hloop train_iter ∅) as [Hcount Hpos]; [by intros t n|].
  rewrite lookup_total_empty in Hcount. cbn in Hcount.
  split; [exact Hcount|].
  rewrite <- Hcount, lookup_total_alt. specialize (Hpos token).
  destruct (_ !! token) as [n|]; cbn.
  - specialize (Hpos n eq_refl). split; [done|lia].
  - done.
Qed.

(** ** [evaluate] *)

Lemma agreements_bounds (a b : list Z) :
  0 ≤ agreements a b ≤ Z.of_nat (length b).
Proof.
  revert b. induction a as [|x a IH]; intros [|y b]; cbn [agreements length];
    try lia.
  specialize (IH b). destruct (decide (x = y)); lia.
Qed.

Lemma eq_sum_same_size (a b : list Z) :
  length a = length b →
  ∃ correct : Z, eq_sum a b = Ok correct ∧ 0 ≤ correct ≤ size0 b.
Proof.
  intros Hlen. exists (agreements a b). unfold eq_sum.
  rewrite decide_True by done. split; [done|apply agreements_bounds].
Qed.

Lemma true_div_counts (correct count : Z) :
  0 ≤ correct ≤ count →
  0 < count →
  ∃ accuracy : Q,
    true_div correct count = Returns accuracy ∧
    (accuracy == correct # Z.to_pos count)%Q ∧ (0 <= accuracy <= 1)%Q.
Proof.
  intros Hcorrect Hcount. unfold true_div.
  destruct (count =? 0) eqn:Hzero; [apply Z.eqb_eq in Hzero; lia|].
  eexists. split; [reflexivity|].
  rewrite Z.sgn_pos, Z.abs_eq by lia.
  assert ((correct # Z.to_pos count) * inject_Z 1 == correct # Z.to_pos count)%Q
    as Heq by apply Qmult_1_r.
  split; [exact Heq|]. rewrite Heq. unfold Qle. cbn.
  rewrite Z2Pos.id by lia. lia.
Qed.

Section EvaluateFacts.
Context {F : Type}.
Variable argmax1 : list (list F) → result (list Z).
Variable model : list Z → list Z → result (list (list F)).

Lemma evaluate_loop (dataloader : list encoded_batch) :
  ∀ total_correct total_count : Z,
    Forall (scored argmax1 model) dataloader →
    ∃ correct : Z,
      for_each (evaluate_body argmax1 model) (total_correct, total_count)
        dataloader
      = Ok (total_correct + correct,
            total_count + size0 (concat (map (λ b, b.1.1) dataloader))) ∧
      0 ≤ correct ≤ size0 (concat (map (λ b : encoded_batch, b.1.1) dataloader)).
Proof.
  induction dataloader as [|b dataloader IH];
    intros total_correct total_count Hscored.
  - exists 0. unfold size0. cbn [map concat length for_each].
    change (Z.of_nat 0) with 0. by rewrite !Z.add_0_r.
  - apply Forall_cons in Hscored as [Hb Hrest].
    destruct Hb as (scores & classes & Hmodel & Hargmax & Hlen).
    destruct (eq_sum_same_size _ _ Hlen) as (c & Hc & Hcb).
    destruct b as [[label text] offsets]. cbn [fst snd] in *.
    cbn [for_each evaluate_body]. rewrite Hmodel. cbn.
    rewrite Hargmax. cbn. rewrite Hc. cbn.
    destruct (IH (total_correct + c) (total_count + size0 label) Hrest)
      as (c' & -> & Hc').
    exists (c + c'). unfold size0 in *. cbn [map concat fst].
    unfold encoded_batch in *. rewrite !length_app, !Nat2Z.inj_add.
    split; [do 2 f_equal; lia|lia].
Qed.

Lemma agreements_filter (a b : list Z) :
  agreements a b
  = Z.of_nat (length (List.filter (λ p : Z * Z, p.1 =? p.2) (combine a b))).
Proof.
  revert b. induction a as [|x a IH]; intros [|y b]; try done.
  cbn [agreements combine List.filter fst snd]. rewrite IH.
  destruct (decide (x = y)) as [->|Hne].
  - rewrite Z.eqb_refl. cbn [length]. lia.
  - apply Z.eqb_neq in Hne. rewrite Hne. lia.
Qed.

Lemma evaluate_loop_as (classes_of : encoded_batch → list Z)
    (dataloader : list encoded_batch) :
  ∀ total_correct total_count : Z,
    Forall (scored_as argmax1 model classes_of) dataloader →
    for_each (evaluate_body argmax1 model) (total_correct, total_count)
      dataloader
    = Ok (total_correct + right_predictions classes_of dataloader,
          total_count + size0 (concat (map (λ b, b.1.1) dataloader))) ∧
    0 ≤ right_predictions classes_of dataloader
      ≤ size0 (concat (map (λ b : encoded_batch, b.1.1) dataloader)).
Proof.
  unfold right_predictions.
  induction dataloader as [|b dataloader IH];
    intros total_correct total_count Hscored.
  - unfold size0. cbn [map concat length for_each sumZ foldr].
    change (Z.of_nat 0) with 0. by rewrite !Z.add_0_r.
  - apply Forall_cons in Hscored as [Hb Hrest].
    destruct Hb as (scores & Hmodel & Hargmax & Hlen).
    pose proof (agreements_bounds (classes_of b) b.1.1) as Hbound.
    rewrite agreements_filter in Hbound.
    assert (eq_sum (classes_of b) b.1.1
            = Ok (Z.of_nat
                    (length (List.filter (λ p : Z * Z, p.1 =? p.2)
                               (combine (classes_of b) b.1.1))))) as Hsum
      by (unfold eq_sum; rewrite decide_True by done;
          by rewrite agreements_filter).
    destruct (IH (total_correct +
                  Z.of_nat
                    (length (List.filter (λ p : Z * Z, p.1 =? p.2)
                               (combine (classes_of b) b.1.1))))
                (total_count + size0 b.1.1) Hrest) as [Hloop Hrange].
    cbn [map sumZ foldr concat] in *.
    fold (sumZ (map (λ b : encoded_batch,
                       Z.of_nat
                         (length (List.filter (λ p : Z * Z, p.1 =? p.2)
                                    (combine (classes_of b) b.1.1))))
                  dataloader)) in *.
    destruct b as [[label text] offsets]. cbn [fst snd] in *.
    cbn [for_each evaluate_body]. rewrite Hmodel. cbn.
    rewrite Hargmax. cbn. rewrite Hsum. cbn. cbn [fst snd] in Hloop.
    rewrite Hloop. unfold size0 in *. unfold encoded_batch in *.
    rewrite !length_app, !Nat2Z.inj_add.
    split; [do 2 f_equal; lia|lia].
Qed.

(** X14.  [evaluate] on a loader whose batches the model scores, one class
    per label, and which holds at least one label: it returns the number of
    samples whose predicted class is their label, over the number of labels
    of the whole loader, a value between 0 and 1. *)
Theorem evaluate_returns_accuracy
    (classes_of : encoded_batch → list Z) (dataloader : list encoded_batch) :
  Forall (scored_as argmax1 model classes_of) dataloader →
  Exists (λ b : encoded_batch, b.1.1 ≠ []) dataloader →
  ∃ accuracy : Q,
    evaluate argmax1 dataloader model = Returns accuracy ∧
    (accuracy ==
     right_predictions classes_of dataloader
     # Z.to_pos (size0 (concat (map (λ b : encoded_batch, b.1.1) dataloader))))%Q ∧
    (0 <= accuracy <= 1)%Q.
Proof.
  intros Hscored Hlabel.
  destruct (evaluate_loop_as classes_of dataloader 0 0 Hscored)
    as [Hloop Hcorrect].
  assert (0 < size0 (concat (map (λ b : encoded_batch, b.1.1) dataloader)))
    as Hcount.
  { unfold size0. clear -Hlabel.
    induction Hlabel as [b rest Hb|b rest _ IH]; cbn [map concat];
      rewrite length_app; [|lia].
    destruct (b.1.1); [done|]. cbn [length]. lia. }
  destruct (true_div_counts _ _ Hcorrect Hcount) as (accuracy & Hdiv & Heq & Hacc).
  exists accuracy. unfold evaluate. rewrite Hloop. cbn.
  rewrite !Z.add_0_l. done.
Qed.

(** X15.  [evaluate] on a loader whose batches the model scores but which
    holds no label at all, the empty loader for one, ends in a
    [ZeroDivisionError]. *)
Theorem evaluate_without_labels_divides_by_zero
    (dataloader : list encoded_batch) :
  Forall (scored argmax1 model) dataloader →
  Forall (λ b : encoded_batch, b.1.1 = []) dataloader →
  evaluate argmax1 dataloader model = RaisesZeroDivisionError.
Proof.
  intros Hscored Hempty.
  destruct (evaluate_loop dataloader 0 0 Hscored) as (correct & Hloop & _).
  assert (size0 (concat (map (λ b : encoded_batch, b.1.1) dataloader)) = 0)
    as Hcount.
  { unfold size0. clear -Hempty.
    induction Hempty as [|b rest Hb _ IH]; [done|].
    cbn [map concat]. rewrite Hb. exact IH. }
  unfold evaluate. unfold encoded_batch in *. rewrite Hloop, Hcount. done.
Qed.

End EvaluateFacts.

Lemma evaluate_returns_accuracy_witness :
  let argmax1 (rows : list (list Z)) : result (list Z) :=
    Ok (map (λ row, default 0 (head row)) rows) in
  let model (text offsets : list Z) : result (list (list Z)) :=
    Ok (map (λ _, [1]) offsets) in
  let classes_of (b : encoded_batch) : list Z := map (λ _, 1) b.2 in
  let dataloader : list encoded_batch :=
    [([1; 0], [4; 2; 3], [0; 2]); ([1; 1; 0], [2; 2; 3], [0; 1; 2])] in
  ∃ accuracy : Q,
    evaluate argmax1 dataloader model = Returns accuracy ∧
    (accuracy ==
     right_predictions classes_of dataloader
     # Z.to_pos (size0 (concat (map (λ b : encoded_batch, b.1.1) dataloader))))%Q ∧
    (0 <= accuracy <= 1)%Q.
Proof.
  intros argmax1 model classes_of dataloader.
  apply (evaluate_returns_accuracy argmax1 model classes_of dataloader).
  - repeat constructor; eexists; (split; [reflexivity|]); split; reflexivity.
  - apply Exists_cons_hd. discriminate.
Defined.

(** On that loader three of the five predictions are right. *)
Example evaluate_ex :
  evaluate (λ rows : list (list Z), Ok (map (λ row, default 0 (head row)) rows))
    [([1; 0], [4; 2; 3], [0; 2]); ([1; 1; 0], [2; 2; 3], [0; 1; 2])]
    (λ text offsets, Ok (map (λ _, [1]) offsets))
  = Returns (3 # 5) ∧
  right_predictions (λ b : encoded_batch, map (λ _, 1) b.2)
    [([1; 0], [4; 2; 3], [0; 2]); ([1; 1; 0], [2; 2; 3], [0; 1; 2])] = 3.
Proof. split; vm_compute; reflexivity. Qed.

Lemma evaluate_without_labels_divides_by_zero_witness :
  let argmax1 (rows : list (list Z)) : result (list Z) :=
    Ok (map (λ row, default 0 (head row)) rows) in
  let model (text offsets : list Z) : result (list (list Z)) :=
    Ok (map (λ _, [1]) offsets) in
  evaluate argmax1 [] model = RaisesZeroDivisionError.
Proof.
  intros argmax1 model.
  apply (evaluate_without_labels_divides_by_zero argmax1 model []);
    constructor.
Defined.

(** ** [train] *)

Lemma logged_below_interval (idx : nat) :
  (idx < log_interval)%nat → logged idx = false.
Proof.
  intros Hlt. unfold logged. destruct idx as [|idx]; [done|].
  rewrite Nat.mod_small by done. done.
Qed.

Lemma filter_none {A} (f : A → bool) (xs : list A) :
  Forall (λ x, f x = false) xs → List.filter f xs = [].
Proof. induction 1 as [|x xs Hx _ IH]; [done|]. cbn. by rewrite Hx. Qed.

Section TrainFacts.
Context {F M : Type}.
Variable argmax1 : list (list F) → result (list Z).
Variable forward_backward : M → encoded_batch → result (M * list (list F)).

Lemma train_loop_app (xs ys : list encoded_batch) :
  ∀ (idx : nat) (st : train_state M),
    train_loop argmax1 M forward_backward idx st (xs ++ ys) =
    train_loop argmax1 M forward_backward idx st xs ≫=
      λ st', train_loop argmax1 M forward_backward (idx + length xs) st' ys.
Proof.
  induction xs as [|b xs IH]; intros idx st.
  - cbn. by rewrite Nat.add_0_r.
  - cbn [app train_loop length].
    destruct (train_body argmax1 M forward_backward st idx b) as [st1| |];
      [|done|done].
    cbn. rewrite IH. by rewrite Nat.add_succ_r.
Qed.

(** One turn of the loop on a batch that the model takes. *)
Lemma train_body_step (st : train_state M) (idx : nat) (b : encoded_batch) :
  (∃ (m' : M) (scores : list (list F)) (classes : list Z),
      forward_backward (tr_model st) b = Ok (m', scores) ∧
      argmax1 scores = Ok classes ∧ length classes = length b.1.1) →
  b.1.1 ≠ [] →
  0 ≤ tr_correct st ≤ tr_count st →
  ∃ (st1 : train_state M) (correct : Z),
    train_body argmax1 M forward_backward st idx b = Returns st1 ∧
    0 ≤ correct ≤ size0 b.1.1 ∧
    tr_printed st1 =
      tr_printed st ++
      (if logged idx
       then [{| line_idx := idx; line_correct := tr_correct st + correct;
                line_count := tr_count st + size0 b.1.1 |}]
       else []) ∧
    tr_count st1 = (if logged idx then 0 else tr_count st + size0 b.1.1) ∧
    0 ≤ tr_correct st1 ≤ tr_count st1.
Proof.
  intros (m' & scores & classes & Hfb & Hargmax & Hlen) Hlabel Hcounts.
  destruct (eq_sum_same_size _ _ Hlen) as (correct & Hsum & Hcorrect).
  destruct b as [[label text] offsets]. cbn [fst snd] in *.
  assert (0 < size0 label) as Hpos
    by (unfold size0; destruct label; [done|cbn [length]; lia]).
  unfold train_body. rewrite Hfb. cbn. rewrite Hargmax. cbn.
  rewrite Hsum. cbn. destruct (logged idx).
  - destruct (true_div_counts (tr_correct st + correct)
                (tr_count st + size0 label)) as (q & -> & _); [lia|lia|].
    cbn. eexists _, correct. split; [reflexivity|]. cbn.
    repeat split; try done; lia.
  - eexists _, correct. split; [reflexivity|]. cbn.
    rewrite app_nil_r. repeat split; try done; lia.
Qed.

Lemma size0_pos (xs : list Z) : xs ≠ [] → 0 < size0 xs.
Proof. unfold size0. destruct xs; [done|]. cbn [length]. lia. Qed.

Lemma train_loop_lines (dataloader : list encoded_batch) :
  ∀ (idx : nat) (st : train_state M),
    trains_on argmax1 forward_backward dataloader →
    Forall (λ b : encoded_batch, b.1.1 ≠ []) dataloader →
    0 ≤ tr_correct st ≤ tr_count st →
    Forall line_ok (tr_printed st) →
    ∃ (st' : train_state M) (more : list log_line),
      train_loop argmax1 M forward_backward idx st dataloader = Returns st' ∧
      tr_printed st' = tr_printed st ++ more ∧
      map line_idx more = List.filter logged (seq idx (length dataloader)) ∧
      Forall line_ok (tr_printed st').
Proof.
  induction dataloader as [|b dataloader IH];
    intros idx st Htrains Hlabels Hcounts Hlines.
  - exists st, []. by rewrite app_nil_r.
  - apply Forall_cons in Hlabels as [Hlabel Hlabels].
    pose proof (size0_pos _ Hlabel) as Hpos.
    destruct (train_body_step st idx b)
      as (st1 & correct & Hbody & Hcorrect & Hprinted1 & _ & Hcounts1);
      [apply Htrains; apply list_elem_of_here|done|done|].
    assert (trains_on argmax1 forward_backward dataloader) as Htrains'
      by (intros m b' Hb'; apply Htrains; by apply list_elem_of_further).
    assert (Forall line_ok (tr_printed st1)) as Hlines1.
    { rewrite Hprinted1. apply Forall_app. split; [done|].
      destruct (logged idx); [|done]. constructor; [|done].
      unfold line_ok. cbn. lia. }
    destruct (IH (S idx) st1 Htrains' Hlabels Hcounts1 Hlines1)
      as (st' & more & Hloop & Hprinted & Hidx & Hok).
    cbn [train_loop length seq List.filter]. rewrite Hbody. cbn.
    exists st',
      ((if logged idx
        then [{| line_idx := idx; line_correct := tr_correct st + correct;
                 line_count := tr_count st + size0 b.1.1 |}]
        else []) ++ more).
    split; [exact Hloop|].
    split; [by rewrite Hprinted, Hprinted1, app_assoc|].
    split; [|exact Hok].
    rewrite map_app, Hidx. by destruct (logged idx).
Qed.

(** A stretch of the loop in which no index prints: the counts add up. *)
Lemma train_loop_quiet (dataloader : list encoded_batch) :
  ∀ (idx : nat) (st : train_state M),
    trains_on argmax1 forward_backward dataloader →
    Forall (λ b : encoded_batch, b.1.1 ≠ []) dataloader →
    0 ≤ tr_correct st ≤ tr_count st →
    (∀ j : nat, (idx ≤ j < idx + length dataloader)%nat → logged j = false) →
    ∃ st' : train_state M,
      train_loop argmax1 M forward_backward idx st dataloader = Returns st' ∧
      tr_printed st' = tr_printed st ∧
      tr_count st'
      = tr_count st + size0 (concat (map (λ b : encoded_batch, b.1.1) dataloader)) ∧
      0 ≤ tr_correct st' ≤ tr_count st'.
Proof.
  induction dataloader as [|b dataloader IH];
    intros idx st Htrains Hlabels Hcounts Hquiet.
  - exists st. unfold size0. cbn. split; [done|]. split; [done|]. split; lia.
  - apply Forall_cons in Hlabels as [Hlabel Hlabels].
    destruct (train_body_step st idx b)
      as (st1 & correct & Hbody & Hcorrect & Hprinted1 & Hcount1 & Hcounts1);
      [apply Htrains; apply list_elem_of_here|done|done|].
    rewrite (Hquiet idx) in Hprinted1, Hcount1 by (cbn [length]; lia).
    rewrite app_nil_r in Hprinted1.
    destruct (IH (S idx) st1) as (st' & Hloop & Hprinted & Hcount & Hok);
      [intros m b' Hb'; apply Htrains; by apply list_elem_of_further
      |exact Hlabels|exact Hcounts1
      |intros j Hj; apply Hquiet; cbn [length]; lia|].
    cbn [train_loop]. rewrite Hbody. cbn. rewrite Hloop.
    exists st'. split; [reflexivity|]. split; [congruence|].
    split; [|exact Hok]. rewrite Hcount, Hcount1. cbn [map concat].
    unfold size0. rewrite length_app. lia.
Qed.

(** X16.  [train] on a loader whose batches the model takes and which all
    hold a label: it returns, it prints one line for each batch index that
    is a positive multiple of 500 and for no other (so nothing for a loader
    of 500 batches or fewer), and the two counts of every line make an
    accuracy between 0 and 1. *)
Theorem train_prints_every_500_batches
    (dataloader : list encoded_batch) (m : M) :
  trains_on argmax1 forward_backward dataloader →
  Forall (λ b : encoded_batch, b.1.1 ≠ []) dataloader →
  ∃ (m' : M) (printed : list log_line),
    train argmax1 M forward_backward dataloader m = Returns (m', printed) ∧
    map line_idx printed
    = List.filter (λ idx, (idx mod 500 =? 0) && (0 <? idx))%nat
        (seq 0 (length dataloader)) ∧
    ((length dataloader ≤ 500)%nat → printed = []) ∧
    Forall line_ok printed.
Proof.
  intros Htrains Hlabels. unfold train.
  destruct (train_loop_lines dataloader 0
              {| tr_model := m; tr_correct := 0; tr_count := 0;
                 tr_printed := [] |} Htrains Hlabels)
    as (st' & more & -> & Hprinted & Hidx & Hok); [cbn; lia|done|].
  cbn in Hprinted. subst more. exists (tr_model st'), (tr_printed st').
  split; [done|]. split; [exact Hidx|]. split; [|exact Hok].
  intros Hshort. apply (f_equal (@length nat)) in Hidx.
  rewrite length_map, filter_none in Hidx.
  - by destruct (tr_printed st').
  - apply Forall_forall. intros j Hj.
    apply list_elem_of_In, in_seq in Hj.
    apply logged_below_interval. unfold log_interval. lia.
Qed.

(** X17.  On a loader of more than 500 batches the first line that [train]
    prints is for index 500, and its count is the number of labels of the
    first 501 batches, those of index 0 to 500: the first accuracy shown is
    over one batch more than the interval of 500. *)
Theorem train_first_line_covers_501_batches
    (dataloader : list encoded_batch) (m : M) :
  trains_on argmax1 forward_backward dataloader →
  Forall (λ b : encoded_batch, b.1.1 ≠ []) dataloader →
  (500 < length dataloader)%nat →
  ∃ (m' : M) (printed : list log_line) (line : log_line),
    train argmax1 M forward_backward dataloader m = Returns (m', printed) ∧
    printed !! 0%nat = Some line ∧
    line_idx line = 500%nat ∧
    line_count line
    = size0 (concat (map (λ b : encoded_batch, b.1.1) (take 501 dataloader))).
Proof.
  intros Htrains Hlabels Hlong.
  destruct (lookup_lt_is_Some_2 dataloader 500 Hlong) as [b Hb].
  pose proof (take_drop_middle _ _ _ Hb) as Hsplit.
  assert (∀ xs : list encoded_batch,
            xs ⊆ dataloader → trains_on argmax1 forward_backward xs) as Hsub
    by (intros xs Hxs m0 b0 Hb0; apply Htrains; by apply Hxs).
  assert (∀ xs : list encoded_batch,
            xs ⊆ dataloader →
            Forall (λ b : encoded_batch, b.1.1 ≠ []) xs) as Hsublabels.
  { intros xs Hxs. apply Forall_forall. intros b0 Hb0.
    rewrite Forall_forall in Hlabels. by apply Hlabels, Hxs. }
  assert (take 500 dataloader ⊆ dataloader) as Htake by apply subseteq_take.
  assert (drop 501 dataloader ⊆ dataloader) as Hdrop by apply subseteq_drop.
  assert (b ∈ dataloader) as Hbin
    by (apply list_elem_of_lookup; by exists 500%nat).
  assert (b.1.1 ≠ []) as Hblabel
    by (rewrite Forall_forall in Hlabels; by apply Hlabels).
  assert (length (take 500 dataloader) = 500%nat) as Hlen500
    by (rewrite length_take; lia).
  destruct (train_loop_quiet (take 500 dataloader) 0
              {| tr_model := m; tr_correct := 0; tr_count := 0;
                 tr_printed := [] |})
    as (st1 & Hloop1 & Hprinted1 & Hcount1 & Hok1);
    [by apply Hsub|by apply Hsublabels|cbn; lia
    |intros j Hj; apply logged_below_interval; unfold log_interval; lia|].
  cbn [tr_printed tr_count] in Hprinted1, Hcount1.
  destruct (train_body_step st1 500 b)
    as (st2 & correct & Hbody & Hcorrect & Hprinted2 & _ & Hok2);
    [by apply Htrains|done|done|].
  change (logged 500) with true in Hprinted2.
  rewrite Hprinted1 in Hprinted2. cbn [app] in Hprinted2.
  destruct (train_loop_lines (drop 501 dataloader) 501 st2)
    as (st' & more & Hloop & Hprinted & _ & _);
    [by apply Hsub|by apply Hsublabels|done| |].
  { rewrite Hprinted2. constructor; [|done]. unfold line_ok. cbn.
    pose proof (size0_pos _ Hblabel). lia. }
  exists (tr_model st'), (tr_printed st'), 
    {| line_idx := 500; line_correct := tr_correct st1 + correct;
       line_count := tr_count st1 + size0 b.1.1 |}.
  split.
  - unfold train. rewrite <- Hsplit at 1.
    rewrite train_loop_app, Hlen500, Hloop1.
    cbn [mbind outcome_bind train_loop Nat.add]. rewrite Hbody.
    cbn [mbind outcome_bind]. rewrite Hloop. done.
  - rewrite Hprinted, Hprinted2. cbn [app lookup list_lookup line_idx line_count].
    split; [reflexivity|]. split; [reflexivity|].
    rewrite Hcount1, (take_S_r _ _ _ Hb), map_app, concat_app.
    unfold size0. rewrite length_app. cbn [map concat].
    rewrite app_nil_r. lia.
Qed.

End TrainFacts.

Lemma train_prints_every_500_batches_witness :
  let argmax1 (rows : list (list Z)) : result (list Z) :=
    Ok (map (λ row, default 0 (head row)) rows) in
  let forward_backward (m : nat) (b : encoded_batch)
    : result (nat * list (list Z)) :=
    Ok (S m, map (λ l, [l]) b.1.1) in
  let dataloader : list encoded_batch :=
    [([1; 0], [4; 2; 3], [0; 2]); ([3], [2], [0])] in
  ∃ (m' : nat) (printed : list log_line),
    train argmax1 nat forward_backward dataloader 0%nat = Returns (m', printed) ∧
    map line_idx printed
    = List.filter (λ idx, (idx mod 500 =? 0) && (0 <? idx))%nat
        (seq 0 (length dataloader)) ∧
    ((length dataloader ≤ 500)%nat → printed = []) ∧
    Forall line_ok printed.
Proof.
  intros argmax1 forward_backward dataloader.
  apply (train_prints_every_500_batches argmax1 forward_backward dataloader).
  - intros m b _. eexists _, _, _. split; [reflexivity|].
    split; [reflexivity|]. by rewrite !length_map.
  - repeat constructor; discriminate.
Defined.

Lemma train_first_line_covers_501_batches_witness :
  let argmax1 (rows : list (list Z)) : result (list Z) :=
    Ok (map (λ row, default 0 (head row)) rows) in
  let forward_backward (m : nat) (b : encoded_batch)
    : result (nat * list (list Z)) :=
    Ok (S m, map (λ l, [l]) b.1.1) in
  let dataloader : list encoded_batch :=
    replicate 501 ([1; 0], [4; 2; 3], [0; 2]) in
  ∃ (m' : nat) (printed : list log_line) (line : log_line),
    train argmax1 nat forward_backward dataloader 0%nat = Returns (m', printed) ∧
    printed !! 0%nat = Some line ∧
    line_idx line = 500%nat ∧
    line_count line
    = size0 (concat (map (λ b : encoded_batch, b.1.1) (take 501 dataloader))).
Proof.
  intros argmax1 forward_backward dataloader.
  apply (train_first_line_covers_501_batches argmax1 forward_backward
           dataloader).
  - intros m b _. eexists _, _, _. split; [reflexivity|].
    split; [reflexivity|]. by rewrite !length_map.
  - apply Forall_replicate. discriminate.
  - unfold dataloader. rewrite length_replicate. lia.
Defined.

(** ** More about the topic [LabelPipeline] *)

Lemma lstrip_keeps (cs : list ascii) (c : ascii) :
  In c cs → is_int_space c = false → In c (lstrip cs).
Proof.
  induction cs as [|x cs IH]; [done|]. intros [->|Hin] Hc; cbn.
  - rewrite Hc. by left.
  - destruct (is_int_space x); [by apply IH|by right].
Qed.

Lemma strip_keeps (cs : list ascii) (c : ascii) :
  In c cs → is_int_space c = false → In c (strip cs).
Proof.
  intros Hin Hc. unfold strip.
  rewrite <- in_rev. apply lstrip_keeps; [|done].
  rewrite <- in_rev. by apply lstrip_keeps.
Qed.

Lemma digits_stop (cs : list ascii) (c : ascii) :
  ∀ (acc : Z) (after_digit : bool),
    In c cs → is_digit c = false → c ≠ "_"%char →
    digits acc after_digit cs = None.
Proof.
  induction cs as [|x cs IH]; intros acc after_digit Hin Hdigit Hunder; [done|].
  cbn [digits]. destruct Hin as [->|Hin].
  - rewrite Hdigit. apply Ascii.eqb_neq in Hunder. by rewrite Hunder.
  - destruct (is_digit x); [by apply IH|].
    destruct (Ascii.eqb x "_" && after_digit)%bool; [by apply IH|done].
Qed.

Lemma int_of_literal_sign (cs : list ascii) :
  int_of_literal cs =
  match strip cs with
  | c :: ds =>
      if Ascii.eqb c "-" then Z.opp <$> digits 0 false ds
      else if Ascii.eqb c "+" then digits 0 false ds
      else digits 0 false (c :: ds)
  | [] => digits 0 false []
  end.
Proof.
  unfold int_of_literal. destruct (strip cs) as [|c ds]; [done|].
  by destruct c as [[] [] [] [] [] [] [] []].
Qed.

Lemma digits_chars (cs : list ascii) :
  ∀ (acc : Z) (after_digit : bool) (n : Z),
    digits acc after_digit cs = Some n →
    Forall (λ c, is_digit c = true ∨ c = "_"%char) cs.
Proof.
  induction cs as [|x cs IH]; intros acc after_digit n Hn; [done|].
  cbn [digits] in Hn. destruct (is_digit x) eqn:Hx.
  - constructor; [by left|by eapply IH].
  - destruct (Ascii.eqb x "_") eqn:Hunder; [|done].
    destruct after_digit; [|done]. cbn in Hn.
    apply Ascii.eqb_eq in Hunder. constructor; [by right|by eapply IH].
Qed.

Lemma is_digit_ascii (c : ascii) : is_digit c = true → is_ascii c = true.
Proof.
  unfold is_digit, is_ascii. cbn zeta.
  rewrite andb_true_iff, !Nat.leb_le, Nat.ltb_lt. lia.
Qed.

Lemma is_int_space_ascii (c : ascii) : is_int_space c = true → is_ascii c = true.
Proof.
  unfold is_int_space, is_ascii. cbn zeta.
  rewrite orb_true_iff, andb_true_iff, !Nat.leb_le, Nat.eqb_eq, Nat.ltb_lt. lia.
Qed.

(** A string that the model of [int] accepts holds ASCII characters only:
    white space that [int] strips, a sign, digits and underscores.  On such
    strings the model is the builtin. *)
Lemma py_int_reads_ascii_only (s : string) (n : Z) :
  py_int (PyStr s) = Ok n →
  Forall (λ c, is_ascii c = true) (list_ascii_of_string s).
Proof.
  unfold py_int. rewrite int_of_literal_sign. intros Hn.
  apply Forall_forall. intros c Hc. apply list_elem_of_In in Hc.
  destruct (is_int_space c) eqn:Hspace; [by apply is_int_space_ascii|].
  pose proof (strip_keeps _ _ Hc Hspace) as Hstrip.
  assert (∀ (ds : list ascii) (acc : Z) (after_digit : bool) (k : Z),
            digits acc after_digit ds = Some k → In c ds → is_ascii c = true)
    as Hdigits.
  { intros ds acc after_digit k Hk Hin.
    pose proof (digits_chars _ _ _ _ Hk) as Hchars.
    rewrite Forall_forall in Hchars.
    destruct (Hchars c (proj2 (list_elem_of_In _ _) Hin)) as [Hd| ->];
      [by apply is_digit_ascii|done]. }
  destruct (strip (list_ascii_of_string s)) as [|x ds]; [done|].
  destruct (Ascii.eqb x "-") eqn:Hx; [|destruct (Ascii.eqb x "+") eqn:Hx'].
  - apply Ascii.eqb_eq in Hx as ->. destruct Hstrip as [<-|Hds]; [done|].
    destruct (digits 0 false ds) as [k|] eqn:Hk; [|done]. by eapply Hdigits.
  - apply Ascii.eqb_eq in Hx' as ->. destruct Hstrip as [<-|Hds]; [done|].
    destruct (digits 0 false ds) as [k|] eqn:Hk; [|done]. by eapply Hdigits.
  - destruct (digits 0 false (x :: ds)) as [k|] eqn:Hk; [|done].
    by eapply Hdigits.
Qed.

(** [int] does not strip the separators 28 to 31, which [str.split] takes
    for white space. *)
Example py_int_separator_ex :
  py_int (PyStr (String "3" (String (ascii_of_nat 28) EmptyString)))
  = Raise ValueError ∧
  py_int (PyStr (String (ascii_of_nat 11)
                   (String "3" (String (ascii_of_nat 12) EmptyString))))
  = Ok 3 ∧
  whitespace_tokenizer
    (String "3" (String (ascii_of_nat 28) (String "4" EmptyString)))
  = ["3"; "4"]%string.
Proof. repeat split; reflexivity. Qed.

(** X18.  The topic [LabelPipeline] rejects with a [ValueError] every label
    string that holds an ASCII character which is neither a digit, a sign,
    an underscore nor white space that [int] strips (9 to 13 and the blank),
    whatever the other characters of the string are: a class name such as
    ["World"] in place of a class number ends the call, and so does a
    number followed by one of the separators 28 to 31. *)
Theorem topic_label_with_letter_raises (s : string) (c : ascii) :
  In c (list_ascii_of_string s) →
  is_ascii c = true →
  is_digit c = false →
  is_int_space c = false →
  c ≠ "_"%char → c ≠ "-"%char → c ≠ "+"%char →
  AGNews.LabelPipeline_call (PyStr s) = Raise ValueError.
Proof.
  intros Hin _ Hdigit Hspace Hunder Hminus Hplus.
  unfold AGNews.LabelPipeline_call, py_int.
  rewrite int_of_literal_sign.
  pose proof (strip_keeps _ _ Hin Hspace) as Hstrip.
  destruct (strip (list_ascii_of_string s)) as [|x ds]; [done|].
  destruct (Ascii.eqb x "-") eqn:Hx; [|destruct (Ascii.eqb x "+") eqn:Hx'].
  - apply Ascii.eqb_eq in Hx as ->. destruct Hstrip as [Heq|Hds]; [done|].
    by rewrite (digits_stop ds c).
  - apply Ascii.eqb_eq in Hx' as ->. destruct Hstrip as [Heq|Hds]; [done|].
    by rewrite (digits_stop ds c).
  - by rewrite (digits_stop (x :: ds) c).
Qed.

Lemma topic_label_with_letter_raises_witness :
  AGNews.LabelPipeline_call (PyStr "World") = Raise ValueError.
Proof.
  apply (topic_label_with_letter_raises "World" "r"%char).
  - cbn. tauto.
  - reflexivity.
  - reflexivity.
  - reflexivity.
  - discriminate.
  - discriminate.
  - discriminate.
Defined.

(** X19.  The topic [LabelPipeline] takes every label written as a plain
    decimal numeral and returns the number it denotes less one; nothing
    holds it to the number of classes. *)
Theorem topic_label_numeral (ds : list nat) :
  ds ≠ [] →
  Forall (λ d, (d < 10)%nat) ds →
  AGNews.LabelPipeline_call (PyStr (numeral ds)) = Ok (numeral_value ds - 1).
Proof.
  intros Hne Hds. unfold AGNews.LabelPipeline_call.
  rewrite (py_int_numeral ds Hne Hds). done.
Qed.

Lemma topic_label_numeral_witness :
  AGNews.LabelPipeline_call (PyStr (numeral [1; 2; 0]%nat))
  = Ok (numeral_value [1; 2; 0]%nat - 1).
Proof.
  apply (topic_label_numeral [1; 2; 0]%nat).
  - discriminate.
  - repeat constructor; lia.
Defined.
